(** * The terminal session engine of [src/composables/useTerminal.ts]

    A shallow embedding of the [useTerminal] composable: the suggestion
    engine, the history navigator and the execution coordinator, together
    with the properties the specification states about them.

    JavaScript strings are sequences of UTF-16 code units, and every string
    operation the engine uses ([trim], [split], [startsWith], the default
    [sort] order, [===]) is defined on code units.  A string is therefore a
    [list N] here; string literals of the source are written with [lit]. *)

From Stdlib Require Import List ZArith NArith Bool Lia ZifyBool Ascii String.
From Stdlib Require Import Sorting.Sorted Sorting.Permutation.
Import ListNotations.

Local Open Scope list_scope.

(** ** Strings *)

Module JsString.

(** A UTF-16 code unit (a value below 65536) and a JavaScript string. *)
Definition codeUnit := N.
Definition t := list codeUnit.

(** A source literal (all literals of the engine are ASCII). *)
Definition lit (s : String.string) : t :=
  map N_of_ascii (list_ascii_of_string s).

Definition SPACE : codeUnit := 32%N.

(** [===] on strings. *)
Fixpoint eqb (a b : t) : bool :=
  match a, b with
  | [], [] => true
  | x :: a', y :: b' => N.eqb x y && eqb a' b'
  | _, _ => false
  end.

(** Truthiness of a string: [if (text)] holds of the non-empty ones. *)
Definition truthy (a : t) : bool :=
  match a with [] => false | _ :: _ => true end.

(** [candidate.startsWith(text)]. *)
Fixpoint startsWith (candidate text : t) : bool :=
  match text, candidate with
  | [], _ => true
  | x :: text', y :: candidate' => N.eqb x y && startsWith candidate' text'
  | _ :: _, [] => false
  end.

(** ECMAScript [WhiteSpace] and [LineTerminator] code points, the ones
    [String.prototype.trim] strips. *)
Definition isWhiteSpace (c : codeUnit) : bool :=
  (  N.eqb c 9 || N.eqb c 10 || N.eqb c 11 || N.eqb c 12 || N.eqb c 13
  || N.eqb c 32 || N.eqb c 160 || N.eqb c 5760
  || (N.leb 8192 c && N.leb c 8202)
  || N.eqb c 8232 || N.eqb c 8233 || N.eqb c 8239 || N.eqb c 8287
  || N.eqb c 12288 || N.eqb c 65279)%N.

Fixpoint trimStart (a : t) : t :=
  match a with
  | [] => []
  | c :: a' => if isWhiteSpace c then trimStart a' else a
  end.

Definition trimEnd (a : t) : t := rev (trimStart (rev a)).

(** [text.trim()]. *)
Definition trim (a : t) : t := trimEnd (trimStart a).

(** [text.split(" ")] as the head piece and the pieces after it: the
    array [split] returns is never empty. *)
Fixpoint splitPieces (a : t) : t * list t :=
  match a with
  | [] => ([], [])
  | c :: a' =>
      let (piece, pieces) := splitPieces a' in
      if N.eqb c SPACE then ([], piece :: pieces) else (c :: piece, pieces)
  end.

Definition split (a : t) : list t :=
  let (piece, pieces) := splitPieces a in piece :: pieces.

(** [pieces.join(" ")]. *)
Fixpoint join (pieces : list t) : t :=
  match pieces with
  | [] => []
  | [p] => p
  | p :: ps => p ++ SPACE :: join ps
  end.

(** The order of the default [Array.prototype.sort]: code unit by code
    unit, a proper prefix before its extensions. *)
Fixpoint compare (a b : t) : comparison :=
  match a, b with
  | [], [] => Eq
  | [], _ :: _ => Lt
  | _ :: _, [] => Gt
  | x :: a', y :: b' =>
      match N.compare x y with
      | Eq => compare a' b'
      | c => c
      end
  end.

Definition leb (a b : t) : bool :=
  match compare a b with Gt => false | _ => true end.

Definition le (a b : t) : Prop := leb a b = true.

(** [a] is a prefix of [b]. *)
Definition prefix (a b : t) : Prop := exists rest, b = a ++ rest.

(** The default [sort()].  The order is total and antisymmetric on
    strings, so the sorted array is determined by the elements alone
    ([sort_unique] below); insertion is one way to compute it. *)
Fixpoint insert (x : t) (l : list t) : list t :=
  match l with
  | [] => [x]
  | y :: l' => if leb x y then x :: l else y :: insert x l'
  end.

Fixpoint sort (l : list t) : list t :=
  match l with
  | [] => []
  | x :: l' => insert x (sort l')
  end.

End JsString.

Abbreviation jsstring := JsString.t.
Abbreviation lit := JsString.lit.

(** ** Data model *)

(** [CommandDefinition].  The [handler] field is a function supplied by the
    registry; the engine only calls it, so its behaviour enters the model
    as the handler events of [event] below and the record keeps the data
    fields. *)
Record CommandDefinition := mkCommand {
  name : jsstring;
  description : jsstring;
  availableArguments : option (list jsstring)
}.

(** The [type] of a message: ["input"] or ["output"]. *)
Inductive MessageType := Input | Output.

Record TerminalMessage := mkMessage {
  type : MessageType;
  text : jsstring;
  isHtml : bool
}.

(** ** Suggestion engine *)

(** The candidates of one command: its name, then ["<name> <argument>"]
    for each available argument. *)
Definition candidates (command : CommandDefinition) : list jsstring :=
  name command ::
  match availableArguments command with
  | Some arguments =>
      map (fun argument => name command ++ JsString.SPACE :: argument) arguments
  | None => []
  end.

(** The vocabulary before sorting (the [flatMap]). *)
Definition vocabulary (commands : list CommandDefinition) : list jsstring :=
  flat_map candidates commands.

(** The computed [suggestions]. *)
Definition suggestions (commands : list CommandDefinition) : list jsstring :=
  JsString.sort (vocabulary commands).

(** The computed [suggestion] for a given [inputText]. *)
Definition suggestion (commands : list CommandDefinition) (inputText : jsstring)
  : jsstring :=
  let text := JsString.trim inputText in
  if negb (JsString.truthy text) then []
  else
    match find (fun command => JsString.startsWith command text)
               (suggestions commands) with
    | None => []
    | Some command => if negb (JsString.truthy command) then [] else command
    end.

(** [parseInput]: the first piece is the command, the rest the arguments. *)
Record ParsedInput := mkParsed {
  command : jsstring;
  args : list jsstring
}.

Definition parseInput (text : jsstring) : ParsedInput :=
  match JsString.split text with
  | command :: args => mkParsed command args
  | [] => mkParsed [] []  (* not reached: [split] returns a piece *)
  end.

(** ** Session state *)

(** One call of a command handler: the definition found and the arguments
    passed. *)
Record Invocation := mkInvocation {
  definition : CommandDefinition;
  arguments : list jsstring
}.

(** The refs of one [useTerminal] instance, and three pieces of bookkeeping
    the code leaves to its runtime: whether the [watchEffect] job is queued
    in Vue's scheduler ([watchEffect] re-runs on the next flush, not inside
    the assignment that triggers it; the tests [await nextTick()] for it),
    the handler calls made so far, and how many of them have not settled. *)
Record Session := mkSession {
  inputText : jsstring;
  messages : list TerminalMessage;
  historyEntries : list jsstring;
  historyIndex : Z;
  isRunning : bool;
  isHalted : bool;
  watchQueued : bool;
  invoked : list Invocation;
  inFlight : nat
}.

(** The state [useTerminal] returns: empty refs, [historyIndex] at -1, and
    the first run of the [watchEffect] already done (it wrote [""]). *)
Definition initial : Session :=
  mkSession [] [] [] (-1) false false false [] 0.

(** What the engine does to the world: assignments to its refs and calls
    of a handler. *)
Inductive effect :=
| SetInputText (value : jsstring)
| SetMessages (value : list TerminalMessage)
| SetHistoryEntries (value : list jsstring)
| SetHistoryIndex (value : Z)
| SetIsRunning (value : bool)
| SetIsHalted (value : bool)
| CallHandler (call : Invocation).

(** The [watchEffect] reads [historyEntries] and [historyIndex]: assigning
    a new array to the first, or a different number to the second, queues
    it. *)
Definition perform (e : effect) (s : Session) : Session :=
  match s with
  | mkSession it ms he hi run halt wq inv fl =>
      match e with
      | SetInputText v => mkSession v ms he hi run halt wq inv fl
      | SetMessages v => mkSession it v he hi run halt wq inv fl
      | SetHistoryEntries v => mkSession it ms v hi run halt true inv fl
      | SetHistoryIndex v =>
          mkSession it ms he v run halt (wq || negb (Z.eqb v hi)) inv fl
      | SetIsRunning v => mkSession it ms he hi v halt wq inv fl
      | SetIsHalted v => mkSession it ms he hi run v wq inv fl
      | CallHandler call =>
          mkSession it ms he hi run halt wq (inv ++ [call]) (S fl)
      end
  end.

Definition replay (s : Session) (log : list effect) : Session :=
  fold_left (fun s e => perform e s) log s.

(** The states the session goes through while [log] is performed, one per
    effect. *)
Fixpoint statesDuring (s : Session) (log : list effect) : list Session :=
  match log with
  | [] => []
  | e :: log' => perform e s :: statesDuring (perform e s) log'
  end.

(** ** The engine's code, as computations that read the session and log
    their effects *)

Definition M (A : Type) : Type := Session -> A * list effect.

Definition ret {A} (a : A) : M A := fun _ => (a, []).

Definition bind {A B} (m : M A) (f : A -> M B) : M B :=
  fun s =>
    let (a, log1) := m s in
    let (b, log2) := f a (replay s log1) in
    (b, log1 ++ log2).

Definition get : M Session := fun s => (s, []).

Definition write (e : effect) : M unit := fun _ => (tt, [e]).

Definition result {A} (m : M A) (s : Session) : A := fst (m s).
Definition effects {A} (m : M A) (s : Session) : list effect := snd (m s).
Definition stateAfter {A} (m : M A) (s : Session) : Session :=
  replay s (effects m s).

Declare Scope engine_scope.
Delimit Scope engine_scope with engine.
Notation "x <- m ;; k" := (bind m (fun x => k))
  (at level 61, m at next level, right associativity) : engine_scope.
Notation "m ;; k" := (bind m (fun _ => k))
  (at level 61, right associativity) : engine_scope.
Local Open Scope engine_scope.

(** [entries[index]]: [undefined] outside the array. *)
Definition entryAt (entries : list jsstring) (index : Z) : option jsstring :=
  if (index <? 0)%Z then None else nth_error entries (Z.to_nat index).

(** [value ?? ""]. *)
Definition orEmpty (value : option jsstring) : jsstring :=
  match value with Some v => v | None => [] end.

Definition appendMessage (text : jsstring) (type : MessageType) (isHtml : bool)
  : M unit :=
  s <- get ;;
  write (SetMessages (messages s ++ [mkMessage type text isHtml])).

Definition navigateToPreviousEntry : M unit :=
  s <- get ;;
  if (historyIndex s <? Z.of_nat (List.length (historyEntries s)) - 1)%Z
  then write (SetHistoryIndex (historyIndex s + 1))
  else ret tt.

Definition navigateToNextEntry : M unit :=
  s <- get ;;
  if (historyIndex s >? -1)%Z
  then write (SetHistoryIndex (historyIndex s - 1))
  else ret tt.

(** The body of the [watchEffect]. *)
Definition watchEffect : M unit :=
  s <- get ;;
  write (SetInputText (orEmpty (entryAt (historyEntries s) (historyIndex s)))).

Definition haltExecution : M unit :=
  write (SetIsHalted true) ;;
  s <- get ;;
  if negb (isRunning s) then appendMessage [] Input false else ret tt.

(** The [context] handed to handlers. *)
Definition appendOutput (text : jsstring) (isHtml : option bool) : M unit :=
  appendMessage text Output
    (match isHtml with Some b => b | None => false end).

Definition clearMessages : M unit := write (SetMessages []).

Definition setInput (value : jsstring) : M unit := write (SetInputText value).

Definition autocompleteSuggestion (commands : list CommandDefinition) : M unit :=
  s <- get ;;
  let suggested := suggestion commands (inputText s) in
  if JsString.truthy suggested then write (SetInputText suggested) else ret tt.

(** [input !== historyEntries.value[0]]. *)
Definition differsFromLatest (input : jsstring) (entries : list jsstring) : bool :=
  match entryAt entries 0 with
  | Some latest => negb (JsString.eqb input latest)
  | None => true
  end.

Definition notFoundPrefix : jsstring := lit "sh: command not found: ".

(** [unref(props.commands).find(d => d.name === command)]: the first
    definition with that name. *)
Definition findCommand (commands : list CommandDefinition) (token : jsstring)
  : option CommandDefinition :=
  find (fun commandDefinition => JsString.eqb (name commandDefinition) token)
       commands.

(** Where the synchronous part of [execute] ends: at a [return] (or the end
    of the body), or at the [await] of a handler call. *)
Inductive Progress :=
| Returned
| Awaiting (call : Invocation).

(** [execute()] up to its [await]. *)
Definition execute (commands : list CommandDefinition) : M Progress :=
  s <- get ;;
  if isRunning s then ret Returned
  else
    let input := JsString.trim (inputText s) in
    appendMessage input Input false ;;
    write (SetInputText []) ;;
    if JsString.truthy input then
      s <- get ;;
      (if differsFromLatest input (historyEntries s)
       then write (SetHistoryEntries (input :: historyEntries s))
       else ret tt) ;;
      write (SetHistoryIndex (-1)) ;;
      let parsed := parseInput input in
      match findCommand commands (command parsed) with
      | None =>
          appendOutput (notFoundPrefix ++ command parsed) (Some false) ;;
          ret Returned
      | Some commandDefinition =>
          write (SetIsRunning true) ;;
          write (SetIsHalted false) ;;
          write (CallHandler (mkInvocation commandDefinition (args parsed))) ;;
          ret (Awaiting (mkInvocation commandDefinition (args parsed)))
      end
    else ret Returned.

(** How the awaited handler call ends. *)
Inductive Outcome := Fulfilled | Rejected.

(** [execute()] from its [await] on: the [finally] block runs whichever way
    the handler ended, and the promise of [execute] ends the same way. *)
Definition executeFinally (outcome : Outcome) : M Outcome :=
  write (SetIsRunning false) ;;
  ret outcome.

(** ** Sessions as sequences of events *)

(** What can happen to a session: a call of the returned interface by the
    presentation layer, a flush of Vue's scheduler, and what a handler in
    flight does through its context, ending with its settling. *)
Inductive event :=
| DoSetInput (value : jsstring)
| DoAutocompleteSuggestion
| DoNavigateToPreviousEntry
| DoNavigateToNextEntry
| DoExecute
| DoHaltExecution
| SchedulerFlush
| HandlerAppendOutput (text : jsstring) (isHtml : option bool)
| HandlerClearMessages
| HandlerSettles (outcome : Outcome).

(** The flush runs the [watchEffect] job if it is queued. *)
Definition flush (s : Session) : Session :=
  if watchQueued s then
    match stateAfter watchEffect s with
    | mkSession it ms he hi run halt _ inv fl =>
        mkSession it ms he hi run halt false inv fl
    end
  else s.

(** One handler call leaves the ones in flight. *)
Definition settled (s : Session) : Session :=
  match s with
  | mkSession it ms he hi run halt wq inv fl =>
      mkSession it ms he hi run halt wq inv (pred fl)
  end.

(** A handler event needs a handler in flight. *)
Definition step (commands : list CommandDefinition) (s : Session) (ev : event)
  : option Session :=
  match ev with
  | DoSetInput value => Some (stateAfter (setInput value) s)
  | DoAutocompleteSuggestion => Some (stateAfter (autocompleteSuggestion commands) s)
  | DoNavigateToPreviousEntry => Some (stateAfter navigateToPreviousEntry s)
  | DoNavigateToNextEntry => Some (stateAfter navigateToNextEntry s)
  | DoExecute => Some (stateAfter (execute commands) s)
  | DoHaltExecution => Some (stateAfter haltExecution s)
  | SchedulerFlush => Some (flush s)
  | HandlerAppendOutput text isHtml =>
      match inFlight s with
      | O => None
      | S _ => Some (stateAfter (appendOutput text isHtml) s)
      end
  | HandlerClearMessages =>
      match inFlight s with
      | O => None
      | S _ => Some (stateAfter clearMessages s)
      end
  | HandlerSettles outcome =>
      match inFlight s with
      | O => None
      | S _ => Some (settled (stateAfter (executeFinally outcome) s))
      end
  end.

Fixpoint run (commands : list CommandDefinition) (s : Session) (evs : list event)
  : option Session :=
  match evs with
  | [] => Some s
  | ev :: evs' =>
      match step commands s ev with
      | Some s' => run commands s' evs'
      | None => None
      end
  end.

(** The states a session can be in. *)
Definition reachable (commands : list CommandDefinition) (s : Session) : Prop :=
  exists evs, run commands initial evs = Some s.

(** No two neighbours of the list are the same string. *)
Fixpoint noAdjacentDuplicates (entries : list jsstring) : Prop :=
  match entries with
  | a :: (b :: _) as rest => a <> b /\ noAdjacentDuplicates rest
  | _ => True
  end.

(** ** Notions the properties are stated with *)

(** [c] is the first candidate of the vocabulary, in the sort order, that
    starts with [text]. *)
Definition leastCandidate (commands : list CommandDefinition) (text c : jsstring)
  : Prop :=
  In c (vocabulary commands) /\ JsString.prefix text c /\
  forall c', In c' (vocabulary commands) -> JsString.prefix text c' ->
             JsString.le c c'.

(** The running flag and the count of handler calls in flight agree. *)
Definition coherent (s : Session) : Prop :=
  inFlight s = if isRunning s then 1 else 0.

(** The cursor is -1 or the index of a history entry. *)
Definition indexInRange (s : Session) : Prop :=
  (-1 <= historyIndex s <= Z.of_nat (List.length (historyEntries s)) - 1)%Z.

(** A piece of text without a space character. *)
Definition spaceFree (piece : jsstring) : Prop := ~ In JsString.SPACE piece.

(** An effect that calls a handler. *)
Definition isCall (e : effect) : bool :=
  match e with CallHandler _ => true | _ => false end.

(** The tokens of a text when every run of white space separates two of
    them: the reading of "whitespace-delimited" in the specification, to
    compare [parseInput] with. *)
Fixpoint whitespaceTokens (a : jsstring) : list jsstring :=
  match a with
  | [] => []
  | c :: a' =>
      if JsString.isWhiteSpace c then whitespaceTokens a'
      else
        match a' with
        | [] => [[c]]
        | c' :: _ =>
            if JsString.isWhiteSpace c' then [c] :: whitespaceTokens a'
            else
              match whitespaceTokens a' with
              | token :: tokens => (c :: token) :: tokens
              | [] => [[c]]
              end
        end
  end.

(** ** Sessions of the test suite *)

(** The two commands of the tests. *)
Definition abc : CommandDefinition := mkCommand (lit "abc") [] None.
Definition dfg : CommandDefinition := mkCommand (lit "dfg") [] None.
Definition testCommands : list CommandDefinition := [abc; dfg].

(** A command with arguments, as [cat] has in [commands.ts]. *)
Definition catCommands : list CommandDefinition :=
  [mkCommand (lit "cat") [] (Some [lit "a.md"; lit "b.md"]);
   mkCommand (lit "clear") [] None].

(** ["abc"] was submitted and its handler has not settled; the user has
    typed ["zzz"] in the meantime. *)
Definition runningEvents : list event :=
  [DoSetInput (lit "abc"); DoExecute; SchedulerFlush; DoSetInput (lit "zzz")].

Definition runningSession : Session :=
  mkSession (lit "zzz") [mkMessage Input (lit "abc") false] [lit "abc"] (-1)
            true false false [mkInvocation abc []] 1.

(** ["abc"] was submitted and has settled; the user went one entry back
    in the history and then emptied the input. *)
Definition browsingEvents : list event :=
  [DoSetInput (lit "abc"); DoExecute; SchedulerFlush; HandlerSettles Fulfilled;
   DoNavigateToPreviousEntry; SchedulerFlush; DoSetInput []].

Definition browsingSession : Session :=
  mkSession [] [mkMessage Input (lit "abc") false] [lit "abc"] 0
            false false false [mkInvocation abc []] 0.

(** The refs a navigation call has no business with are the same in both
    states. *)
Definition sameOutsideNavigation (s s' : Session) : Prop :=
  historyEntries s' = historyEntries s /\ messages s' = messages s /\
  isRunning s' = isRunning s /\ isHalted s' = isHalted s.

(** The events that come from the handler in flight or from the scheduler,
    not from a call of the interface. *)
Definition ofHandlerOrScheduler (ev : event) : bool :=
  match ev with
  | SchedulerFlush | HandlerAppendOutput _ _ | HandlerClearMessages
  | HandlerSettles _ => true
  | _ => false
  end.

(** A submission as the tests make it: [setInput(text)], [await execute()]
    with a handler that returns at once, and the scheduler flush the
    [await] gives room for. *)
Definition submit (text : jsstring) : list event :=
  [DoSetInput text; DoExecute; SchedulerFlush; HandlerSettles Fulfilled].

(** A navigation call followed by [await nextTick()]. *)
Definition previousEntry : list event := [DoNavigateToPreviousEntry; SchedulerFlush].
Definition nextEntry : list event := [DoNavigateToNextEntry; SchedulerFlush].

Definition inputAfter (commands : list CommandDefinition) (evs : list event)
  : option jsstring :=
  option_map inputText (run commands initial evs).

(** ** Notions the further properties are stated with *)

(** The text is empty or starts with a character that is not white
    space. *)
Definition startsClean (a : jsstring) : Prop :=
  match a with
  | [] => True
  | c :: _ => JsString.isWhiteSpace c = false
  end.

(** A history entry as [execute] stores it: not empty, and with no white
    space at its ends. *)
Definition trimmedEntry (entry : jsstring) : Prop :=
  entry <> [] /\ JsString.trim entry = entry.

(** A handler call [execute] can make with these commands: the definition
    is the first registered one of its name, the name is a token of the
    parser, and so are the arguments. *)
Definition registeredCall (commands : list CommandDefinition) (call : Invocation)
  : Prop :=
  In (definition call) commands /\
  findCommand commands (name (definition call)) = Some (definition call) /\
  name (definition call) <> [] /\
  spaceFree (name (definition call)) /\
  Forall spaceFree (arguments call).

(** The event is the settling of a handler. *)
Definition settles (ev : event) : bool :=
  match ev with HandlerSettles _ => true | _ => false end.

(** ** The handlers of [composables/commands.ts] *)

(** A handler acts on the session through its context only, so it is
    modelled by the context calls it makes, in order, as handler events;
    [handled] is a submission whose handler makes these calls and returns
    (the [await] then resumes [execute] with a fulfilled promise). *)
Definition handled (calls : list event) : list event :=
  DoExecute :: calls ++ [HandlerSettles Fulfilled].

(** [echo]: [context.appendOutput(values.join(" "))]. *)
Definition echoHandler (values : list jsstring) : list event :=
  [HandlerAppendOutput (JsString.join values) None].

(** [clear]: [context.clearMessages()]. *)
Definition clearHandler (args : list jsstring) : list event :=
  [HandlerClearMessages].

Definition QUOTE : JsString.codeUnit := 34%N.
Definition LINEFEED : JsString.codeUnit := 10%N.

Definition catUsage : jsstring :=
  lit "You must specify the filename. For example, <code>"
  ++ QUOTE :: lit "cat file" ++ QUOTE :: lit "</code>".

Definition catNotFound (file : jsstring) : jsstring :=
  lit "cat: " ++ file ++ lit ": No such file or directory".

(** [cat].  The module [../files] is not among the sources: the lookup
    [files[file]] is a parameter, [Some] text for a name that has text and
    [None] for [undefined].  [[file]] is the first argument, [undefined]
    when there is none. *)
Definition catHandler (files : jsstring -> option jsstring) (args : list jsstring)
  : list event :=
  match args with
  | [] => [HandlerAppendOutput catUsage (Some true)]
  | file :: _ =>
      if negb (JsString.truthy file)
      then [HandlerAppendOutput catUsage (Some true)]
      else
        match files file with
        | None => [HandlerAppendOutput (catNotFound file) None]
        | Some contents =>
            if negb (JsString.truthy contents)
            then [HandlerAppendOutput (catNotFound file) None]
            else [HandlerAppendOutput contents (Some true)]
        end
  end.

(** [lines.join("\n")]. *)
Fixpoint joinLines (lines : list jsstring) : jsstring :=
  match lines with
  | [] => []
  | [l] => l
  | l :: ls => l ++ LINEFEED :: joinLines ls
  end.

(** One line of [help]: ["<name> - <description>"]. *)
Definition helpLine (command : CommandDefinition) : jsstring :=
  name command ++ lit " - " ++ description command.

Definition helpLines (commands : list CommandDefinition) : list jsstring :=
  JsString.sort (map helpLine commands).

(** [help], over the commands of the registry. *)
Definition helpHandler (commands : list CommandDefinition) (args : list jsstring)
  : list event :=
  [HandlerAppendOutput (joinLines (helpLines commands)) None].

(** ** The suggestion overlay of [components/Terminal.vue] *)

(** [a.substring(start)] for a [start] that is a length. *)
Definition substring (a : jsstring) (start : nat) : jsstring := skipn start a.

(** [a.padStart(targetLength, " ")]. *)
Definition padStart (a : jsstring) (targetLength : nat) : jsstring :=
  repeat JsString.SPACE (targetLength - List.length a) ++ a.

(** The computed [suggestionText], from [terminal.suggestion] and
    [terminal.input]. *)
Definition suggestionText (suggested input : jsstring) : jsstring :=
  padStart (substring suggested (List.length input)) (List.length suggested).

(** While a command runs, the newest history entry is the line whose
    handler was called last. *)
Definition runningLine (s : Session) : Prop :=
  isRunning s = true ->
  exists d arguments before older,
    invoked s = before ++ [mkInvocation d arguments] /\
    historyEntries s = JsString.join (name d :: arguments) :: older.

(** The number of [execute()] calls among the events. *)
Definition submissions (evs : list event) : nat :=
  List.length (filter (fun ev => match ev with DoExecute => true | _ => false end) evs).

(** * Properties *)

(** ** Strings *)

Section StringFacts.

Import JsString.

Lemma eqb_eq (a b : jsstring) : eqb a b = true <-> a = b.
Proof.
  revert b; induction a as [|x a IH]; intros [|y b]; simpl;
    try (split; [discriminate | congruence]); try tauto.
  rewrite andb_true_iff, N.eqb_eq, IH.
  split; [intros [-> ->]; reflexivity | intros [= -> ->]; auto].
Qed.

Lemma eqb_refl (a : jsstring) : eqb a a = true.
Proof. apply eqb_eq; reflexivity. Qed.

Lemma eqb_neq (a b : jsstring) : eqb a b = false <-> a <> b.
Proof.
  rewrite <- eqb_eq. destruct (eqb a b); split; congruence.
Qed.

Lemma truthy_nonempty (a : jsstring) : truthy a = true <-> a <> [].
Proof. destruct a; simpl; split; congruence. Qed.

Lemma startsWith_prefix (candidate text : jsstring) :
  startsWith candidate text = true <-> prefix text candidate.
Proof.
  revert candidate; induction text as [|x text IH]; intros [|y candidate]; simpl.
  - split; [intros _; exists []; reflexivity | reflexivity].
  - split; [intros _; exists (y :: candidate); reflexivity | reflexivity].
  - split; [discriminate | intros [rest H]; discriminate].
  - rewrite andb_true_iff, N.eqb_eq, IH. split.
    + intros [-> [rest ->]]. exists rest; reflexivity.
    + intros [rest H]. injection H as -> ->. split; [reflexivity|].
      exists rest; reflexivity.
Qed.

Lemma prefix_refl (a : jsstring) : prefix a a.
Proof. exists []; symmetry; apply app_nil_r. Qed.

Lemma compare_refl (a : jsstring) : compare a a = Eq.
Proof. induction a as [|x a IH]; simpl; [|rewrite N.compare_refl]; auto. Qed.

Lemma compare_eq (a b : jsstring) : compare a b = Eq -> a = b.
Proof.
  revert b; induction a as [|x a IH]; intros [|y b]; simpl; try discriminate; auto.
  destruct (N.compare_spec x y) as [->| |]; try discriminate.
  intros Hc; f_equal; auto.
Qed.

Lemma compare_antisym (a b : jsstring) : compare b a = CompOpp (compare a b).
Proof.
  revert b; induction a as [|x a IH]; intros [|y b]; simpl; auto.
  rewrite (N.compare_antisym x y).
  destruct (N.compare x y); simpl; auto.
Qed.

Lemma le_refl (a : jsstring) : le a a.
Proof. unfold le, leb; rewrite compare_refl; reflexivity. Qed.

Lemma le_total (a b : jsstring) : le a b \/ le b a.
Proof.
  unfold le, leb. rewrite (compare_antisym a b).
  destruct (compare a b); simpl; auto.
Qed.

Lemma le_antisym (a b : jsstring) : le a b -> le b a -> a = b.
Proof.
  unfold le, leb. rewrite (compare_antisym a b).
  destruct (compare a b) eqn:E; simpl; try discriminate.
  intros _ _; apply compare_eq; assumption.
Qed.

Lemma le_trans (a b c : jsstring) : le a b -> le b c -> le a c.
Proof.
  unfold le, leb.
  revert b c; induction a as [|x a IH]; intros [|y b] [|z c]; simpl;
    try discriminate; auto.
  destruct (N.compare_spec x y) as [Exy|Hxy|Hxy]; try discriminate;
    destruct (N.compare_spec y z) as [Eyz|Hyz|Hyz]; try discriminate;
    intros H1 H2.
  - subst. rewrite N.compare_refl. eapply IH; eassumption.
  - subst. rewrite (proj2 (N.compare_lt_iff y z) Hyz); reflexivity.
  - subst. rewrite (proj2 (N.compare_lt_iff x z) Hxy); reflexivity.
  - rewrite (proj2 (N.compare_lt_iff x z) (N.lt_trans _ _ _ Hxy Hyz)); reflexivity.
Qed.

(** A string comes no later than any string it is a prefix of. *)
Lemma prefix_le (a b : jsstring) : prefix a b -> le a b.
Proof.
  intros [rest ->]. unfold le, leb.
  induction a as [|x a IH]; simpl.
  - destruct rest; reflexivity.
  - rewrite N.compare_refl; exact IH.
Qed.

Lemma insert_perm (x : jsstring) (l : list jsstring) :
  Permutation (insert x l) (x :: l).
Proof.
  induction l as [|y l IH]; simpl; [reflexivity|].
  destruct (leb x y); [reflexivity|].
  rewrite IH. apply perm_swap.
Qed.

Lemma sort_perm (l : list jsstring) : Permutation (sort l) l.
Proof.
  induction l as [|x l IH]; simpl; [reflexivity|].
  rewrite insert_perm. constructor; exact IH.
Qed.

Lemma insert_sorted (x : jsstring) (l : list jsstring) :
  StronglySorted le l -> StronglySorted le (insert x l).
Proof.
  induction 1 as [|y l Hs IH Hall]; simpl.
  - repeat constructor.
  - destruct (leb x y) eqn:E.
    + constructor; [constructor; assumption|].
      constructor; [exact E|].
      eapply Forall_impl; [|exact Hall].
      intros z Hz; eapply le_trans; [exact E | exact Hz].
    + constructor; [exact IH|].
      assert (Hyx : le y x) by (destruct (le_total x y); [unfold le in *; congruence | assumption]).
      eapply Permutation_Forall; [symmetry; apply insert_perm|].
      constructor; assumption.
Qed.

Lemma sort_sorted (l : list jsstring) : StronglySorted le (sort l).
Proof.
  induction l as [|x l IH]; simpl; [constructor | apply insert_sorted; exact IH].
Qed.

(** Two sorted arrangements of the same strings are the same list: the
    result of [sort()] does not depend on the algorithm. *)
Lemma sorted_perm_eq (l l' : list jsstring) :
  StronglySorted le l -> StronglySorted le l' -> Permutation l l' -> l = l'.
Proof.
  intros Hl; revert l'; induction Hl as [|x l Hs IH Hall]; intros l' Hl' Hp.
  - apply Permutation_nil in Hp; subst; reflexivity.
  - destruct Hl' as [|y l' Hs' Hall'].
    + symmetry in Hp; apply Permutation_nil in Hp; discriminate.
    + assert (x = y) as <-.
      { apply le_antisym.
        - assert (Hy : In y (x :: l)) by (eapply Permutation_in; [symmetry; exact Hp | left; reflexivity]).
          destruct Hy as [->|Hy]; [apply le_refl|].
          rewrite Forall_forall in Hall; auto.
        - assert (Hx : In x (y :: l')) by (eapply Permutation_in; [exact Hp | left; reflexivity]).
          destruct Hx as [->|Hx]; [apply le_refl|].
          rewrite Forall_forall in Hall'; auto. }
      f_equal. apply IH; [assumption|].
      eapply Permutation_cons_inv; exact Hp.
Qed.

Lemma sort_unique (l l' : list jsstring) :
  Permutation l l' -> StronglySorted le l' -> l' = sort l.
Proof.
  intros Hp Hs. apply sorted_perm_eq; [assumption | apply sort_sorted |].
  rewrite <- Hp. symmetry; apply sort_perm.
Qed.

(** [find] on a sorted list returns the least element that satisfies the
    test. *)
Lemma find_sorted_least (p : jsstring -> bool) (l : list jsstring) (x : jsstring) :
  StronglySorted le l -> find p l = Some x ->
  forall y, In y l -> p y = true -> le x y.
Proof.
  induction 1 as [|z l Hs IH Hall]; simpl; [discriminate|].
  destruct (p z) eqn:Ez.
  - intros [= <-] y [<-|Hy] _; [apply le_refl|].
    rewrite Forall_forall in Hall; auto.
  - intros Hf y [<-|Hy] Hpy; [congruence | auto].
Qed.

End StringFacts.

(** ** Suggestion engine *)

Section SuggestionFacts.

Import JsString.

Variable commands : list CommandDefinition.

Lemma suggestions_in (c : jsstring) :
  In c (suggestions commands) <-> In c (vocabulary commands).
Proof.
  unfold suggestions; split; apply Permutation_in;
    [apply sort_perm | symmetry; apply sort_perm].
Qed.

Lemma prefix_nonempty (text c : jsstring) :
  text <> [] -> prefix text c -> truthy c = true.
Proof.
  intros Ht [rest ->]. destruct text; [congruence | reflexivity].
Qed.

(** With a non-blank input the suggestion is the least matching candidate
    when one matches, and empty when none does. *)
Lemma suggestion_cases (inputText : jsstring) :
  trim inputText <> [] ->
  leastCandidate commands (trim inputText) (suggestion commands inputText)
  \/ (suggestion commands inputText = [] /\
      forall c, In c (vocabulary commands) -> ~ prefix (trim inputText) c).
Proof.
  intros Ht. unfold suggestion.
  rewrite (proj2 (truthy_nonempty _) Ht); simpl.
  destruct (find _ (suggestions commands)) as [c|] eqn:Ef.
  - left. pose proof (find_some _ _ Ef) as [Hin Hsw].
    apply startsWith_prefix in Hsw.
    rewrite (prefix_nonempty _ _ Ht Hsw); simpl.
    repeat split; [apply suggestions_in; exact Hin | exact Hsw |].
    intros c' Hin' Hp'.
    eapply find_sorted_least;
      [apply sort_sorted | exact Ef | apply suggestions_in; exact Hin' |].
    apply startsWith_prefix; exact Hp'.
  - right. split; [reflexivity|].
    intros c Hin Hp.
    pose proof (find_none _ _ Ef c (proj2 (suggestions_in c) Hin)) as Hn.
    apply startsWith_prefix in Hp. simpl in Hn. congruence.
Qed.

Lemma suggestion_blank (inputText : jsstring) :
  trim inputText = [] -> suggestion commands inputText = [].
Proof. intros Ht; unfold suggestion; rewrite Ht; reflexivity. Qed.

Lemma leastCandidate_unique (text c c' : jsstring) :
  leastCandidate commands text c -> leastCandidate commands text c' -> c = c'.
Proof.
  intros (Hin & Hp & Hl) (Hin' & Hp' & Hl'). apply le_antisym; auto.
Qed.

End SuggestionFacts.

(** C3.  Suggestion contract: for every command set and every input text,
    with [text] the trimmed input, the suggestion is [""] when [text] is
    empty and when no candidate of the vocabulary (bare names and
    ["<name> <argument>"] strings) starts with [text]; when [text] is not
    empty and some candidate starts with it, the suggestion is the
    lexicographically smallest such candidate, and no other candidate is;
    and when [text] is itself a candidate the suggestion equals [text]. *)
Theorem suggestion_contract (commands : list CommandDefinition) (inputText : jsstring) :
  let text := JsString.trim inputText in
  (text = [] -> suggestion commands inputText = []) /\
  ((forall c, In c (vocabulary commands) -> ~ JsString.prefix text c) ->
   suggestion commands inputText = []) /\
  (text <> [] ->
   forall c, In c (vocabulary commands) -> JsString.prefix text c ->
     leastCandidate commands text (suggestion commands inputText) /\
     forall c', leastCandidate commands text c' ->
                c' = suggestion commands inputText) /\
  (In text (vocabulary commands) -> suggestion commands inputText = text).
Proof.
  intros text; subst text.
  assert (Hblank := suggestion_blank commands inputText).
  split; [exact Hblank|].
  split.
  { intros Hnone.
    destruct (JsString.trim inputText) as [|x t] eqn:Et; [apply Hblank; reflexivity|].
    rewrite <- Et in *.
    destruct (suggestion_cases commands inputText) as [(Hin & Hp & _)|[H _]];
      [rewrite Et; discriminate | | exact H].
    exfalso; exact (Hnone _ Hin Hp). }
  split.
  { intros Ht c Hin Hp.
    destruct (suggestion_cases commands inputText Ht) as [Hleast|[_ Hnone]].
    - split; [exact Hleast|].
      intros c' Hc'. eapply leastCandidate_unique; eassumption.
    - exfalso; exact (Hnone _ Hin Hp). }
  intros Hin.
  destruct (JsString.trim inputText) as [|x t] eqn:Et;
    [apply Hblank; reflexivity|].
  rewrite <- Et in *.
  assert (Ht : JsString.trim inputText <> []) by (rewrite Et; discriminate).
  destruct (suggestion_cases commands inputText Ht) as [(Hin' & Hp' & Hl')|[_ Hnone]].
  - apply le_antisym.
    + apply Hl'; [exact Hin | apply prefix_refl].
    + apply prefix_le; exact Hp'.
  - exfalso; exact (Hnone _ Hin (prefix_refl _)).
Qed.

(** The suggestion contract at a command set with arguments. *)
Lemma suggestion_contract_witness :
  suggestion catCommands (lit "cat a.md") = lit "cat a.md".
Proof.
  apply (suggestion_contract catCommands (lit "cat a.md")).
  vm_compute. right; left; reflexivity.
Defined.

(** ** The effects of [execute] *)

Section ExecuteFacts.

Variable commands : list CommandDefinition.

Lemma execute_running (s : Session) :
  isRunning s = true -> execute commands s = (Returned, []).
Proof. intros H; unfold execute, bind, get; simpl; rewrite H; reflexivity. Qed.

Lemma execute_blank (s : Session) :
  isRunning s = false -> JsString.trim (inputText s) = [] ->
  execute commands s =
    (Returned,
     [SetMessages (messages s ++ [mkMessage Input [] false]); SetInputText []]).
Proof.
  intros Hr Ht. destruct s as [it ms he hi r h wq inv fl]; simpl in *; subst r.
  unfold execute, bind, get, appendMessage, write; simpl.
  rewrite Ht; reflexivity.
Qed.

(** The whole log of a call that goes past the guard with a non-blank
    input, in the order of the assignments of the source. *)
Lemma execute_submitted (s : Session) :
  isRunning s = false -> JsString.trim (inputText s) <> [] ->
  let input := JsString.trim (inputText s) in
  let parsed := parseInput input in
  execute commands s =
    (match findCommand commands (command parsed) with
     | None => Returned
     | Some d => Awaiting (mkInvocation d (args parsed))
     end,
     [SetMessages (messages s ++ [mkMessage Input input false]);
      SetInputText []]
     ++ (if differsFromLatest input (historyEntries s)
         then [SetHistoryEntries (input :: historyEntries s)] else [])
     ++ [SetHistoryIndex (-1)]
     ++ match findCommand commands (command parsed) with
        | None =>
            [SetMessages
               ((messages s ++ [mkMessage Input input false])
                ++ [mkMessage Output (notFoundPrefix ++ command parsed) false])]
        | Some d =>
            [SetIsRunning true; SetIsHalted false;
             CallHandler (mkInvocation d (args parsed))]
        end).
Proof.
  intros Hr Ht. destruct s as [it ms he hi r h wq inv fl]; simpl in *; subst r.
  apply truthy_nonempty in Ht.
  unfold execute, bind, get, appendMessage, appendOutput, write; simpl.
  rewrite Ht; simpl.
  destruct (differsFromLatest (JsString.trim it) he); simpl;
    destruct (findCommand commands _); reflexivity.
Qed.

End ExecuteFacts.

(** ** Invariants of sessions *)

#[local] Arguments Z.of_nat : simpl never.
#[local] Arguments Z.sub : simpl never.
#[local] Arguments Z.add : simpl never.

Ltac engine_unfold :=
  unfold step, flush, settled, stateAfter, effects, execute, executeFinally,
    haltExecution, navigateToPreviousEntry, navigateToNextEntry, watchEffect,
    autocompleteSuggestion, setInput, clearMessages, appendOutput,
    appendMessage, bind, get, write, ret in *;
  simpl in *.

Ltac split_tests :=
  repeat match goal with
         | |- context [if ?c then _ else _] => destruct c eqn:?; simpl in *
         | |- context [match findCommand ?cs ?t with _ => _ end] =>
             destruct (findCommand cs t) eqn:?; simpl in *
         end.

Section Invariants.

Variable commands : list CommandDefinition.

Lemma run_preserves (P : Session -> Prop) :
  (forall s ev s', P s -> step commands s ev = Some s' -> P s') ->
  forall evs s s', P s -> run commands s evs = Some s' -> P s'.
Proof.
  intros Hstep; induction evs as [|ev evs IH]; simpl; intros s s' Hs Hrun.
  - injection Hrun as <-; exact Hs.
  - destruct (step commands s ev) as [s1|] eqn:E; [|discriminate].
    eapply IH; [eapply Hstep; eassumption | exact Hrun].
Qed.

Lemma step_coherent (s : Session) (ev : event) (s' : Session) :
  coherent s -> step commands s ev = Some s' -> coherent s'.
Proof.
  unfold coherent. destruct s as [it ms he hi r h wq inv fl].
  destruct ev; engine_unfold; intros Hc Hs;
    try (destruct fl as [|fl]; [discriminate|]);
    injection Hs as <-; revert Hc; split_tests; congruence.
Qed.

Lemma step_indexInRange (s : Session) (ev : event) (s' : Session) :
  indexInRange s -> step commands s ev = Some s' -> indexInRange s'.
Proof.
  unfold indexInRange. destruct s as [it ms he hi r h wq inv fl].
  destruct ev; engine_unfold; intros Hc Hs;
    try (destruct fl as [|fl]; [discriminate|]);
    injection Hs as <-; revert Hc; split_tests; simpl; lia.
Qed.

Lemma differsFromLatest_cons (input : jsstring) (entries : list jsstring) :
  differsFromLatest input entries = true ->
  noAdjacentDuplicates entries -> noAdjacentDuplicates (input :: entries).
Proof.
  destruct entries as [|latest entries]; [simpl; auto|].
  unfold differsFromLatest; simpl. intros Hd Hn.
  split; [|exact Hn].
  apply eqb_neq. destruct (JsString.eqb input latest); [discriminate | reflexivity].
Qed.

Lemma step_noAdjacentDuplicates (s : Session) (ev : event) (s' : Session) :
  noAdjacentDuplicates (historyEntries s) -> step commands s ev = Some s' ->
  noAdjacentDuplicates (historyEntries s').
Proof.
  destruct s as [it ms he hi r h wq inv fl].
  destruct ev; engine_unfold; intros Hc Hs;
    try (destruct fl as [|fl]; [discriminate|]);
    injection Hs as <-; revert Hc; split_tests; auto;
    intros Hn; apply differsFromLatest_cons; assumption.
Qed.

Lemma reachable_coherent (s : Session) : reachable commands s -> coherent s.
Proof.
  intros [evs Hrun].
  eapply (run_preserves coherent); [apply step_coherent | | exact Hrun].
  reflexivity.
Qed.

Lemma reachable_indexInRange (s : Session) :
  reachable commands s -> indexInRange s.
Proof.
  intros [evs Hrun].
  eapply (run_preserves indexInRange); [apply step_indexInRange | | exact Hrun].
  unfold indexInRange; simpl; lia.
Qed.

Lemma reachable_noAdjacentDuplicates (s : Session) :
  reachable commands s -> noAdjacentDuplicates (historyEntries s).
Proof.
  intros [evs Hrun].
  eapply (run_preserves (fun s => noAdjacentDuplicates (historyEntries s)));
    [apply step_noAdjacentDuplicates | | exact Hrun].
  exact I.
Qed.

End Invariants.

(** ** Execution coordinator *)

(** C1.  Single-flight: in every session state in which [isRunning] is
    true, a call of [execute()] returns with no effect at all (no message
    appended, no ref assigned, no handler called), so the state is the one
    before; hence in every reachable state at most one handler call is in
    flight. *)
Theorem execute_single_flight (commands : list CommandDefinition) :
  (forall s, isRunning s = true ->
     execute commands s = (Returned, []) /\
     stateAfter (execute commands) s = s /\
     step commands s DoExecute = Some s) /\
  (forall s, reachable commands s -> inFlight s <= 1).
Proof.
  split.
  - intros s Hr. pose proof (execute_running commands s Hr) as He.
    unfold step, stateAfter, effects. rewrite He. auto.
  - intros s Hs. apply reachable_coherent in Hs. unfold coherent in Hs.
    destruct (isRunning s); lia.
Qed.

Lemma execute_single_flight_witness :
  stateAfter (execute testCommands) runningSession = runningSession /\
  inFlight runningSession <= 1.
Proof.
  split.
  - apply (proj1 (execute_single_flight testCommands) runningSession eq_refl).
  - apply (proj2 (execute_single_flight testCommands) runningSession).
    exists runningEvents. vm_compute. reflexivity.
Defined.

(** C2.  Guaranteed release: a call of [execute()] that reaches the handler
    dispatch (guard passed, non-empty trimmed input, command token found)
    assigns [isRunning = true] and then calls the handler, as the last
    effects of its synchronous part and with no handler call before them, so
    the handler is called in a state where [isRunning] is true; and when the
    handler settles, fulfilled or rejected alike, the rest of [execute()]
    assigns [isRunning = false] and ends the way the handler did. *)
Theorem guaranteed_release (commands : list CommandDefinition) (s : Session)
    (d : CommandDefinition) :
  isRunning s = false ->
  JsString.trim (inputText s) <> [] ->
  findCommand commands (command (parseInput (JsString.trim (inputText s)))) = Some d ->
  let call := mkInvocation d (args (parseInput (JsString.trim (inputText s)))) in
  (exists before,
     effects (execute commands) s =
       before ++ [SetIsRunning true; SetIsHalted false; CallHandler call] /\
     forallb (fun e => negb (isCall e)) before = true /\
     isRunning (replay s (before ++ [SetIsRunning true; SetIsHalted false])) = true) /\
  result (execute commands) s = Awaiting call /\
  isRunning (stateAfter (execute commands) s) = true /\
  (forall outcome s',
     isRunning (stateAfter (executeFinally outcome) s') = false /\
     result (executeFinally outcome) s' = outcome) /\
  (forall outcome s', inFlight s' <> 0 ->
     exists s'', step commands s' (HandlerSettles outcome) = Some s'' /\
                 isRunning s'' = false).
Proof.
  intros Hr Ht Hf call.
  pose proof (execute_submitted commands s Hr Ht) as He; simpl in He.
  rewrite Hf in He. fold call in He.
  unfold stateAfter, effects, result. rewrite He; simpl.
  split; [|split; [reflexivity|split; [|split]]].
  - eexists (_ :: _ :: (_ ++ [_])). split.
    + simpl. rewrite <- app_assoc. reflexivity.
    + split.
      * destruct (differsFromLatest _ _); reflexivity.
      * destruct s as [it ms he hi r h wq inv fl].
        destruct (differsFromLatest _ _); reflexivity.
  - destruct s as [it ms he hi r h wq inv fl].
    simpl. destruct (differsFromLatest _ _); reflexivity.
  - intros outcome [it ms he hi r h wq inv fl]; split; reflexivity.
  - intros outcome [it ms he hi r h wq inv fl] Hfl; simpl in Hfl.
    destruct fl as [|fl]; [congruence|].
    eexists; split; reflexivity.
Qed.

Lemma guaranteed_release_witness :
  result (execute testCommands)
         (mkSession (lit " dfg a b ") [] [] (-1) false true false [] 0)
  = Awaiting (mkInvocation dfg [lit "a"; lit "b"]).
Proof.
  apply (guaranteed_release testCommands
           (mkSession (lit " dfg a b ") [] [] (-1) false true false [] 0) dfg);
    [reflexivity | vm_compute; discriminate | reflexivity].
Defined.

(** C4, as stated, fails when the call is dropped by the guard: in a
    reachable session where ["abc"] is still running and the input is
    ["zzz"], which names no command, [execute()] appends no message at
    all. *)
Lemma unknown_command_dropped_while_running :
  run testCommands initial runningEvents = Some runningSession /\
  JsString.trim (inputText runningSession) = lit "zzz" /\
  findCommand testCommands (command (parseInput (lit "zzz"))) = None /\
  messages (stateAfter (execute testCommands) runningSession)
    = messages runningSession /\
  messages (stateAfter (execute testCommands) runningSession)
    <> messages runningSession
       ++ [mkMessage Input (lit "zzz") false;
           mkMessage Output (lit "sh: command not found: zzz") false].
Proof. vm_compute. repeat split; discriminate. Qed.

(** C4, amended.  Unknown command: a call of [execute()] that is not
    dropped by the guard, with non-empty trimmed input whose command token
    names no registered definition, appends the echoed input message and
    after it exactly one output message ["sh: command not found: <token>"],
    calls no handler, and [isRunning] is false in every state the session
    goes through during the call. *)
Theorem unknown_command (commands : list CommandDefinition) (s : Session) :
  isRunning s = false ->
  JsString.trim (inputText s) <> [] ->
  findCommand commands (command (parseInput (JsString.trim (inputText s)))) = None ->
  let input := JsString.trim (inputText s) in
  let token := command (parseInput input) in
  result (execute commands) s = Returned /\
  messages (stateAfter (execute commands) s)
    = messages s ++ [mkMessage Input input false;
                     mkMessage Output (lit "sh: command not found: " ++ token) false] /\
  forallb (fun e => negb (isCall e)) (effects (execute commands) s) = true /\
  invoked (stateAfter (execute commands) s) = invoked s /\
  inFlight (stateAfter (execute commands) s) = inFlight s /\
  Forall (fun s1 => isRunning s1 = false)
         (statesDuring s (effects (execute commands) s)).
Proof.
  intros Hr Ht Hf input token.
  pose proof (execute_submitted commands s Hr Ht) as He; simpl in He.
  rewrite Hf in He.
  unfold stateAfter, effects, result. rewrite He; clear He.
  destruct s as [it ms he hi r h wq inv fl]; simpl in *; subst r.
  fold input; fold token.
  destruct (differsFromLatest input he); simpl;
    rewrite <- app_assoc; repeat split; repeat constructor.
Qed.

Lemma unknown_command_witness :
  messages (stateAfter (execute testCommands)
              (mkSession (lit "zzz") [] [] (-1) false false false [] 0))
  = [mkMessage Input (lit "zzz") false;
     mkMessage Output (lit "sh: command not found: zzz") false].
Proof.
  apply (unknown_command testCommands
           (mkSession (lit "zzz") [] [] (-1) false false false [] 0));
    [reflexivity | vm_compute; discriminate | reflexivity].
Defined.

(** ** History *)

(** C5, as stated, fails when the call is dropped by the guard: in a
    reachable session where ["abc"] is still running, the trimmed input
    ["zzz"] is non-empty and differs from the entry at index 0, and
    [execute()] does not prepend it. *)
Lemma history_not_appended_while_running :
  run testCommands initial runningEvents = Some runningSession /\
  JsString.trim (inputText runningSession) = lit "zzz" /\
  entryAt (historyEntries runningSession) 0 = Some (lit "abc") /\
  lit "zzz" <> lit "abc" /\
  historyEntries (stateAfter (execute testCommands) runningSession)
    = historyEntries runningSession /\
  historyEntries (stateAfter (execute testCommands) runningSession)
    <> lit "zzz" :: historyEntries runningSession.
Proof. vm_compute. repeat split; discriminate. Qed.

(** C5, amended.  History append rule and deduplication invariant: on
    every [execute()] call that is not dropped by the guard, the trimmed
    input is prepended to [historyEntries] if it is non-empty and differs
    from the entry at index 0, and [historyEntries] is left as it is
    otherwise; an immediate second submission of the same text leaves it as
    it is; and in every reachable session state no two adjacent entries of
    [historyEntries] are identical. *)
Theorem history_append_rule (commands : list CommandDefinition) :
  (forall s, isRunning s = false ->
     let input := JsString.trim (inputText s) in
     (input <> [] /\ entryAt (historyEntries s) 0 <> Some input ->
      historyEntries (stateAfter (execute commands) s) = input :: historyEntries s) /\
     (~ (input <> [] /\ entryAt (historyEntries s) 0 <> Some input) ->
      historyEntries (stateAfter (execute commands) s) = historyEntries s) /\
     (input <> [] ->
      forall s2, isRunning s2 = false -> JsString.trim (inputText s2) = input ->
        historyEntries s2 = historyEntries (stateAfter (execute commands) s) ->
        historyEntries (stateAfter (execute commands) s2) = historyEntries s2)) /\
  (forall s, reachable commands s -> noAdjacentDuplicates (historyEntries s)).
Proof.
  split; [|apply reachable_noAdjacentDuplicates].
  assert (Hrule : forall s, isRunning s = false ->
            historyEntries (stateAfter (execute commands) s)
            = if JsString.truthy (JsString.trim (inputText s))
                 && differsFromLatest (JsString.trim (inputText s)) (historyEntries s)
              then JsString.trim (inputText s) :: historyEntries s
              else historyEntries s).
  { intros s Hr. unfold stateAfter, effects.
    destruct (JsString.trim (inputText s)) as [|x t] eqn:Et.
    - rewrite (execute_blank commands s Hr Et).
      destruct s; reflexivity.
    - assert (Ht : JsString.trim (inputText s) <> []) by (rewrite Et; discriminate).
      pose proof (execute_submitted commands s Hr Ht) as He; simpl in He.
      rewrite He, Et; clear He.
      destruct s as [it ms he hi r h wq inv fl]; simpl.
      destruct (differsFromLatest (x :: t) he); simpl;
        destruct (findCommand commands _); reflexivity. }
  assert (Hdiff : forall input entries,
            differsFromLatest input entries = true <-> entryAt entries 0 <> Some input).
  { intros input entries. unfold differsFromLatest.
    destruct (entryAt entries 0) as [latest|]; [|split; [discriminate | reflexivity]].
    rewrite negb_true_iff, eqb_neq. split; congruence. }
  intros s Hr input. rewrite (Hrule s Hr). fold input.
  split; [|split].
  - intros [Hne Hd]. apply truthy_nonempty in Hne. apply Hdiff in Hd.
    rewrite Hne, Hd; reflexivity.
  - intros Hn.
    destruct (JsString.truthy input) eqn:E1; [|reflexivity].
    destruct (differsFromLatest input (historyEntries s)) eqn:E2; [|reflexivity].
    exfalso; apply Hn. split; [apply truthy_nonempty; exact E1 | apply Hdiff; exact E2].
  - intros Hne s2 Hr2 Ht2 Hh2. rewrite (Hrule s2 Hr2), Ht2.
    apply truthy_nonempty in Hne. rewrite Hne in *; simpl in *.
    destruct (differsFromLatest input (historyEntries s2)) eqn:E2; [|reflexivity].
    exfalso. apply Hdiff in E2. apply E2. rewrite Hh2.
    destruct (differsFromLatest input (historyEntries s)) eqn:E1; [reflexivity|].
    destruct (entryAt (historyEntries s) 0) as [latest|] eqn:E0.
    + f_equal. unfold differsFromLatest in E1. rewrite E0 in E1.
      apply negb_false_iff, eqb_eq in E1. congruence.
    + unfold differsFromLatest in E1. rewrite E0 in E1. discriminate.
Qed.

Lemma history_append_rule_witness :
  historyEntries (stateAfter (execute testCommands)
                    (mkSession (lit "x") [] [lit "abc"] 0 false false false [] 0))
  = [lit "x"; lit "abc"]
  /\ noAdjacentDuplicates (historyEntries runningSession).
Proof.
  split.
  - apply (proj1 (proj1 (history_append_rule testCommands)
             (mkSession (lit "x") [] [lit "abc"] 0 false false false [] 0) eq_refl)).
    split; vm_compute; discriminate.
  - apply (proj2 (history_append_rule testCommands) runningSession).
    exists runningEvents. vm_compute. reflexivity.
Defined.

(** C6.  History navigation clamps and keeps the cursor in range:
    [navigateToPreviousEntry] adds one to [historyIndex] exactly when
    [historyIndex < historyEntries.length - 1] and leaves it as it is
    otherwise; [navigateToNextEntry] subtracts one exactly when
    [historyIndex > -1] and leaves it as it is otherwise; hence in every
    reachable state [historyIndex] is within
    [[-1, historyEntries.length - 1]]. *)
Theorem history_navigation_clamps (commands : list CommandDefinition) :
  (forall s,
     let last := (Z.of_nat (List.length (historyEntries s)) - 1)%Z in
     ((historyIndex s < last)%Z ->
      historyIndex (stateAfter navigateToPreviousEntry s) = (historyIndex s + 1)%Z) /\
     (~ (historyIndex s < last)%Z ->
      historyIndex (stateAfter navigateToPreviousEntry s) = historyIndex s) /\
     ((historyIndex s > -1)%Z ->
      historyIndex (stateAfter navigateToNextEntry s) = (historyIndex s - 1)%Z) /\
     (~ (historyIndex s > -1)%Z ->
      historyIndex (stateAfter navigateToNextEntry s) = historyIndex s)) /\
  (forall s, reachable commands s ->
     (-1 <= historyIndex s <= Z.of_nat (List.length (historyEntries s)) - 1)%Z).
Proof.
  split; [|apply reachable_indexInRange].
  intros [it ms he hi r h wq inv fl] last; subst last.
  engine_unfold. repeat split; intros Hc; split_tests; simpl; lia.
Qed.

Lemma history_navigation_clamps_witness :
  historyIndex (stateAfter navigateToPreviousEntry runningSession) = 0%Z /\
  historyIndex (stateAfter navigateToPreviousEntry browsingSession) = 0%Z /\
  (-1 <= historyIndex browsingSession
      <= Z.of_nat (List.length (historyEntries browsingSession)) - 1)%Z.
Proof.
  split; [|split].
  - apply (proj1 (proj1 (history_navigation_clamps testCommands) runningSession)).
    vm_compute; reflexivity.
  - apply (proj1 (proj2 (proj1 (history_navigation_clamps testCommands) browsingSession))).
    vm_compute; discriminate.
  - apply (proj2 (history_navigation_clamps testCommands) browsingSession).
    exists browsingEvents. vm_compute. reflexivity.
Defined.

(** C7, as stated, fails for an empty submission: in a reachable session
    that is browsing the history at index 0 with the input emptied and no
    command running, [execute()] is not dropped by the guard (it echoes the
    empty input) and leaves [historyIndex] at 0. *)
Lemma cursor_kept_on_empty_submission :
  run testCommands initial browsingEvents = Some browsingSession /\
  isRunning browsingSession = false /\
  effects (execute testCommands) browsingSession
    = [SetMessages (messages browsingSession ++ [mkMessage Input [] false]);
       SetInputText []] /\
  result (execute testCommands) browsingSession = Returned /\
  historyIndex (stateAfter (execute testCommands) browsingSession) = 0%Z /\
  historyIndex (stateAfter (execute testCommands) browsingSession) <> (-1)%Z.
Proof. vm_compute. repeat split; discriminate. Qed.

(** C7, amended.  Cursor reset on submission: for every call of
    [execute()] that is not dropped by the guard and whose trimmed input is
    non-empty, [historyIndex] is -1 when the synchronous part of the call
    ends (at the not-found return or at the handler call), whether or not a
    history entry was appended and wherever the cursor was; the rest of the
    call, after the handler settles, does not assign [historyIndex], and
    neither does anything the handler or the scheduler does meanwhile; a
    call with empty trimmed input leaves [historyIndex] as it was. *)
Theorem cursor_reset_on_submission (commands : list CommandDefinition) (s : Session) :
  isRunning s = false ->
  (JsString.trim (inputText s) <> [] ->
   historyIndex (stateAfter (execute commands) s) = (-1)%Z) /\
  (JsString.trim (inputText s) = [] ->
   historyIndex (stateAfter (execute commands) s) = historyIndex s) /\
  (forall outcome s',
     historyIndex (stateAfter (executeFinally outcome) s') = historyIndex s') /\
  (forall ev s1 s2,
     ofHandlerOrScheduler ev = true -> step commands s1 ev = Some s2 ->
     historyIndex s2 = historyIndex s1).
Proof.
  intros Hr. unfold stateAfter, effects. split; [|split; [|split]].
  - intros Ht.
    pose proof (execute_submitted commands s Hr Ht) as He; simpl in He.
    rewrite He; clear He.
    destruct s as [it ms he hi r h wq inv fl]; simpl.
    destruct (differsFromLatest _ he); simpl;
      destruct (findCommand commands _); reflexivity.
  - intros Ht. rewrite (execute_blank commands s Hr Ht).
    destruct s; reflexivity.
  - intros outcome [it ms he hi r h wq inv fl]; reflexivity.
  - intros ev [it ms he hi r h wq inv fl] s2 Hev Hs.
    destruct ev; try discriminate Hev; engine_unfold;
      try (destruct fl as [|fl]; [discriminate|]);
      injection Hs as <-; split_tests; reflexivity.
Qed.

(** A navigation call made while the handler runs does move the cursor
    before the call completes. *)
Example cursor_moved_during_await :
  option_map historyIndex
    (run testCommands initial
       [DoSetInput (lit "abc"); DoExecute; DoNavigateToPreviousEntry;
        HandlerSettles Fulfilled]) = Some 0%Z.
Proof. reflexivity. Qed.

Lemma cursor_reset_on_submission_witness :
  historyIndex (stateAfter (execute testCommands)
                  (mkSession (lit "abc") [] [lit "abc"; lit "dfg"] 1
                             false false false [] 0)) = (-1)%Z.
Proof.
  apply (proj1 (cursor_reset_on_submission testCommands
           (mkSession (lit "abc") [] [lit "abc"; lit "dfg"] 1
                      false false false [] 0) eq_refl)).
  vm_compute; discriminate.
Defined.

(** ** Input parsing *)

Section SplitFacts.

Import JsString.

Lemma split_pieces (a : jsstring) :
  split a = fst (splitPieces a) :: snd (splitPieces a).
Proof. unfold split; destruct (splitPieces a); reflexivity. Qed.

Lemma join_split (a : jsstring) : join (split a) = a.
Proof.
  unfold split. induction a as [|c a IH]; simpl; [reflexivity|].
  destruct (splitPieces a) as [piece pieces].
  destruct (N.eqb_spec c SPACE) as [->|Hc].
  - change (join ([] :: piece :: pieces)) with (SPACE :: join (piece :: pieces)).
    rewrite IH; reflexivity.
  - rewrite <- IH. destruct pieces; reflexivity.
Qed.

Lemma split_spaceFree (a : jsstring) : Forall spaceFree (split a).
Proof.
  unfold split. induction a as [|c a IH]; simpl.
  - repeat constructor. intros [].
  - destruct (splitPieces a) as [piece pieces].
    inversion IH as [|? ? Hp Hps]; subst.
    destruct (N.eqb_spec c SPACE) as [->|Hc].
    + constructor; [intros [] | constructor; assumption].
    + constructor; [|assumption].
      intros [E|Hin]; [congruence | exact (Hp Hin)].
Qed.

Lemma spaceFree_cons (c : codeUnit) (piece : jsstring) :
  spaceFree (c :: piece) -> N.eqb c SPACE = false /\ spaceFree piece.
Proof.
  intros Hp; split.
  - apply N.eqb_neq. intros ->. apply Hp; left; reflexivity.
  - intros Hin; apply Hp; right; exact Hin.
Qed.

Lemma splitPieces_spaceFree (piece : jsstring) :
  spaceFree piece -> splitPieces piece = (piece, []).
Proof.
  induction piece as [|c piece IH]; simpl; [reflexivity|].
  intros Hp. apply spaceFree_cons in Hp as [Hc Hp].
  rewrite (IH Hp), Hc. reflexivity.
Qed.

Lemma splitPieces_app (piece rest : jsstring) :
  spaceFree piece ->
  splitPieces (piece ++ SPACE :: rest) = (piece, split rest).
Proof.
  unfold split.
  induction piece as [|c piece IH]; simpl.
  - intros _. destruct (splitPieces rest); reflexivity.
  - intros Hp. apply spaceFree_cons in Hp as [Hc Hp].
    rewrite (IH Hp), Hc. reflexivity.
Qed.

(** The pieces are the only way to cut the text at its spaces. *)
Lemma split_join (piece : jsstring) (pieces : list jsstring) :
  Forall spaceFree (piece :: pieces) -> split (join (piece :: pieces)) = piece :: pieces.
Proof.
  revert piece; induction pieces as [|p pieces IH]; intros piece Hf;
    inversion Hf as [|? ? Hp Hps]; subst.
  - unfold split; simpl. rewrite (splitPieces_spaceFree _ Hp). reflexivity.
  - change (join (piece :: p :: pieces)) with (piece ++ SPACE :: join (p :: pieces)).
    unfold split at 1. rewrite (splitPieces_app _ _ Hp), (IH p Hps). reflexivity.
Qed.

Lemma parseInput_split (a : jsstring) :
  split a = command (parseInput a) :: args (parseInput a).
Proof. unfold parseInput. rewrite split_pieces. reflexivity. Qed.

End SplitFacts.

(** C8, as stated, fails where two spaces meet: the trimmed input
    ["echo  b"] is parsed into the arguments [""] and ["b"], the first of
    them empty, where the white-space-delimited tokens are ["echo"] and
    ["b"]; and the handler is called with the empty argument. *)
Lemma parse_keeps_empty_pieces :
  JsString.trim (lit "echo  b") = lit "echo  b" /\
  parseInput (lit "echo  b") = mkParsed (lit "echo") [[]; lit "b"] /\
  In [] (args (parseInput (lit "echo  b"))) /\
  whitespaceTokens (lit "echo  b") = [lit "echo"; lit "b"] /\
  args (parseInput (lit "echo  b")) <> tl (whitespaceTokens (lit "echo  b")) /\
  result (execute [mkCommand (lit "echo") [] None])
         (mkSession (lit "echo  b") [] [] (-1) false false false [] 0)
  = Awaiting (mkInvocation (mkCommand (lit "echo") [] None) [[]; lit "b"]).
Proof. vm_compute. repeat split; try discriminate. left; reflexivity. Qed.

(** C8, amended.  Input parsing: [execute()], when not dropped by the
    guard, parses every trimmed non-empty input into a command token, the
    text up to the first space character (U+0020), and the sequence of the
    remaining pieces between space characters: joining the command and the arguments with single spaces
    gives the input back, no token contains a space, and no other cut of
    the input has these two properties (so each space separates two
    pieces, two adjacent spaces enclose an empty argument token, and other
    white space separates nothing); the handler of the matched command is
    called with exactly that argument sequence. *)
Theorem parse_input_pieces (text : jsstring) :
  let parsed := parseInput text in
  JsString.join (command parsed :: args parsed) = text /\
  Forall spaceFree (command parsed :: args parsed) /\
  (forall token tokens,
     JsString.join (token :: tokens) = text -> Forall spaceFree (token :: tokens) ->
     token = command parsed /\ tokens = args parsed) /\
  (forall commands s d,
     isRunning s = false -> JsString.trim (inputText s) = text -> text <> [] ->
     findCommand commands (command parsed) = Some d ->
     result (execute commands) s = Awaiting (mkInvocation d (args parsed)) /\
     invoked (stateAfter (execute commands) s)
       = invoked s ++ [mkInvocation d (args parsed)]).
Proof.
  intros parsed; subst parsed.
  split; [rewrite <- parseInput_split; apply join_split|].
  split; [rewrite <- parseInput_split; apply split_spaceFree|].
  split.
  - intros token tokens Hj Hf.
    pose proof (split_join token tokens Hf) as Hs.
    rewrite Hj, parseInput_split in Hs. injection Hs as -> ->. auto.
  - intros commands s d Hr Ht Hne Hf. subst text.
    pose proof (execute_submitted commands s Hr Hne) as He; simpl in He.
    rewrite Hf in He.
    unfold stateAfter, effects, result. rewrite He; clear He.
    split; [reflexivity|].
    destruct s as [it ms he hi r h wq inv fl]; simpl.
    destruct (differsFromLatest _ he); reflexivity.
Qed.

Lemma parse_input_pieces_witness :
  result (execute testCommands)
         (mkSession (lit "abc a  b") [] [] (-1) false false false [] 0)
  = Awaiting (mkInvocation abc [lit "a"; []; lit "b"]).
Proof.
  apply (proj2 (proj2 (proj2 (parse_input_pieces (lit "abc a  b"))))
           testCommands
           (mkSession (lit "abc a  b") [] [] (-1) false false false [] 0) abc);
    [reflexivity | reflexivity | discriminate | reflexivity].
Defined.

(** ** Halting and navigation *)

(** C9.  Halt contract: every call of [haltExecution()] sets [isHalted] to
    true; if [isRunning] is false at the call it also appends exactly one
    input message with empty text to the transcript and changes nothing
    else; if [isRunning] is true it appends nothing and changes no state
    other than [isHalted]. *)
Theorem halt_contract (s : Session) :
  isHalted (stateAfter haltExecution s) = true /\
  (isRunning s = false ->
   effects haltExecution s
     = [SetIsHalted true; SetMessages (messages s ++ [mkMessage Input [] false])] /\
   stateAfter haltExecution s
     = mkSession (inputText s) (messages s ++ [mkMessage Input [] false])
                 (historyEntries s) (historyIndex s) (isRunning s) true
                 (watchQueued s) (invoked s) (inFlight s)) /\
  (isRunning s = true ->
   effects haltExecution s = [SetIsHalted true] /\
   stateAfter haltExecution s
     = mkSession (inputText s) (messages s) (historyEntries s) (historyIndex s)
                 (isRunning s) true (watchQueued s) (invoked s) (inFlight s)).
Proof.
  destruct s as [it ms he hi r h wq inv fl]; engine_unfold.
  split; [destruct r; reflexivity|].
  split; intros ->; split; reflexivity.
Qed.

Lemma halt_contract_witness :
  messages (stateAfter haltExecution initial) = [mkMessage Input [] false] /\
  messages (stateAfter haltExecution runningSession) = messages runningSession.
Proof.
  split.
  - rewrite (proj2 (proj1 (proj2 (halt_contract initial)) eq_refl)). reflexivity.
  - rewrite (proj2 (proj2 (proj2 (halt_contract runningSession)) eq_refl)). reflexivity.
Defined.

Lemma flush_frame (s : Session) : sameOutsideNavigation s (flush s).
Proof.
  destruct s as [it ms he hi r h wq inv fl]; unfold sameOutsideNavigation.
  engine_unfold. destruct wq; simpl; auto.
Qed.

(** C10.  Navigation frame effect: [navigateToPreviousEntry] and
    [navigateToNextEntry] assign nothing but [historyIndex], and the
    [watchEffect] run that an index change brings about assigns nothing but
    [inputText]; in every session state, [historyEntries], [messages],
    [isRunning] and [isHalted] are the same after either call, before and
    after that run, and no handler is called. *)
Theorem navigation_frame (s : Session) :
  (forall nav, nav = navigateToPreviousEntry \/ nav = navigateToNextEntry ->
     sameOutsideNavigation s (stateAfter nav s) /\
     sameOutsideNavigation s (flush (stateAfter nav s)) /\
     inputText (stateAfter nav s) = inputText s /\
     invoked (flush (stateAfter nav s)) = invoked s /\
     inFlight (flush (stateAfter nav s)) = inFlight s /\
     Forall (fun e => exists index, e = SetHistoryIndex index) (effects nav s)) /\
  Forall (fun e => exists value, e = SetInputText value) (effects watchEffect s).
Proof.
  split.
  - intros nav Hnav. unfold sameOutsideNavigation.
    destruct s as [it ms he hi r h wq inv fl].
    destruct Hnav as [-> | ->]; engine_unfold;
      split_tests; repeat split; repeat constructor; eexists; reflexivity.
  - destruct s; repeat constructor; eexists; reflexivity.
Qed.

Lemma navigation_frame_witness :
  sameOutsideNavigation browsingSession
    (flush (stateAfter navigateToNextEntry browsingSession)).
Proof.
  apply (proj1 (navigation_frame browsingSession) navigateToNextEntry).
  right; reflexivity.
Defined.

(** ** The scenarios of the test suite *)

Example test_suggests_commands :
  suggestion testCommands (lit "a") = lit "abc" /\
  suggestion testCommands (lit "d") = lit "dfg" /\
  suggestion testCommands [] = [].
Proof. repeat split. Qed.

Example test_appends_input_commands :
  option_map messages
    (run [abc] initial
       [DoSetInput (lit "abc"); DoExecute;
        HandlerAppendOutput (lit "hello world") None; HandlerSettles Fulfilled])
  = Some [mkMessage Input (lit "abc") false;
          mkMessage Output (lit "hello world") false].
Proof. reflexivity. Qed.

Example test_navigates_through_history :
  let submitted := submit (lit "abc a") ++ submit (lit "abc b") in
  inputAfter [abc] submitted = Some [] /\
  inputAfter [abc] (submitted ++ previousEntry) = Some (lit "abc b") /\
  inputAfter [abc] (submitted ++ previousEntry ++ previousEntry)
    = Some (lit "abc a") /\
  inputAfter [abc] (submitted ++ previousEntry ++ previousEntry ++ previousEntry)
    = Some (lit "abc a") /\
  inputAfter [abc] (submitted ++ previousEntry ++ previousEntry ++ nextEntry)
    = Some (lit "abc b") /\
  inputAfter [abc]
    (submitted ++ previousEntry ++ previousEntry ++ nextEntry ++ nextEntry
     ++ nextEntry) = Some [].
Proof. vm_compute. repeat split. Qed.

Example test_history_skips_duplicates :
  option_map historyEntries
    (run testCommands initial
       (submit (lit "abc a") ++ submit (lit "abc b") ++ submit (lit "abc b")))
  = Some [lit "abc b"; lit "abc a"].
Proof. reflexivity. Qed.

(** * Further properties of the engine *)

(** ** What [trim] leaves *)

Section TrimFacts.

Import JsString.

Lemma trimStart_clean (a : jsstring) : startsClean (trimStart a).
Proof.
induction a as [|c a IH]; simpl; [exact I|].
destruct (isWhiteSpace c) eqn:E; [exact IH | exact E].
Qed.

Lemma trimStart_fixed (a : jsstring) : startsClean a -> trimStart a = a.
Proof. destruct a as [|c a]; simpl; [reflexivity | intros ->; reflexivity]. Qed.

Lemma trimStart_suffix (a : jsstring) : exists blank, a = blank ++ trimStart a.
Proof.
induction a as [|c a [blank IH]]; simpl; [exists []; reflexivity|].
destruct (isWhiteSpace c).
- exists (c :: blank). simpl. f_equal. exact IH.
- exists []. reflexivity.
Qed.

(** Leading white space is stripped up to the first character that is
    not white space, wherever it is. *)
Lemma trimStart_app (a b : jsstring) :
  b <> [] -> startsClean b -> trimStart (a ++ b) = trimStart a ++ b.
Proof.
intros Hb Hc. induction a as [|c a IH]; simpl.
- apply trimStart_fixed; exact Hc.
- destruct (isWhiteSpace c); [exact IH | reflexivity].
Qed.

Lemma trimEnd_prefix (a : jsstring) : prefix (trimEnd a) a.
Proof.
unfold trimEnd, prefix.
destruct (trimStart_suffix (rev a)) as [blank H].
exists (rev blank). rewrite <- rev_app_distr, <- H, rev_involutive. reflexivity.
Qed.

Lemma trimEnd_clean (a : jsstring) : startsClean (rev (trimEnd a)).
Proof. unfold trimEnd. rewrite rev_involutive. apply trimStart_clean. Qed.

Lemma trimEnd_fixed (a : jsstring) : startsClean (rev a) -> trimEnd a = a.
Proof.
intros H. unfold trimEnd. rewrite (trimStart_fixed _ H). apply rev_involutive.
Qed.

Lemma trimEnd_app (a b : jsstring) :
  a <> [] -> startsClean (rev a) -> trimEnd (a ++ b) = a ++ trimEnd b.
Proof.
intros Ha Hc. unfold trimEnd. rewrite rev_app_distr, trimStart_app.
- rewrite rev_app_distr, rev_involutive. reflexivity.
- intros E. apply Ha. rewrite <- (rev_involutive a), E. reflexivity.
- exact Hc.
Qed.

Lemma prefix_clean (a b : jsstring) : prefix a b -> startsClean b -> startsClean a.
Proof. intros [rest ->]. destruct a; simpl; auto. Qed.

Lemma trim_clean (a : jsstring) :
  startsClean (trim a) /\ startsClean (rev (trim a)).
Proof.
unfold trim. split; [|apply trimEnd_clean].
eapply prefix_clean; [apply trimEnd_prefix | apply trimStart_clean].
Qed.

Lemma trim_fixed (a : jsstring) :
  startsClean a -> startsClean (rev a) -> trim a = a.
Proof.
intros H1 H2. unfold trim. rewrite (trimStart_fixed _ H1). apply trimEnd_fixed, H2.
Qed.

Lemma trim_idempotent (a : jsstring) : trim (trim a) = trim a.
Proof. apply trim_fixed; apply trim_clean. Qed.

(** Trimming an extension of a trimmed text keeps the text. *)
Lemma trim_extension (t rest : jsstring) :
  trim t = t -> t <> [] -> trim (t ++ rest) = t ++ trimEnd rest.
Proof.
intros Ht Hne. pose proof (trim_clean t) as [H1 H2]. rewrite Ht in H1, H2.
unfold trim. rewrite trimStart_fixed.
- apply trimEnd_app; assumption.
- destruct t; [congruence | exact H1].
Qed.

End TrimFacts.

(** ** Suggestions and autocompletion *)

Section SuggestionMore.

Import JsString.

Variable commands : list CommandDefinition.

Lemma prefix_trans (a b c : jsstring) : prefix a b -> prefix b c -> prefix a c.
Proof. intros [r1 ->] [r2 ->]. exists (r1 ++ r2). apply eq_sym, app_assoc. Qed.

(** A suggestion is its own suggestion. *)
Lemma suggestion_fixpoint (inputText : jsstring) :
  suggestion commands (suggestion commands inputText)
  = suggestion commands inputText.
Proof.
destruct (trim inputText) as [|x t] eqn:Et.
- rewrite (suggestion_blank commands inputText Et). reflexivity.
- assert (Hne : trim inputText <> []) by (rewrite Et; discriminate).
  destruct (suggestion_cases commands inputText Hne) as [Hleast|[-> _]];
    [|reflexivity].
  set (c := suggestion commands inputText) in *.
  destruct Hleast as (Hin & [rest Hc] & Hl).
  assert (Htrim : trim c = trim inputText ++ trimEnd rest).
  { rewrite Hc. apply trim_extension; [apply trim_idempotent | exact Hne]. }
  assert (Hpc : prefix (trim c) c).
  { rewrite Htrim, Hc at 1. destruct (trimEnd_prefix rest) as [r Hr].
    exists r. rewrite <- app_assoc, <- Hr. reflexivity. }
  assert (Hne' : trim c <> []).
  { rewrite Htrim, Et. discriminate. }
  destruct (suggestion_cases commands c Hne') as [Hleast'|[_ Hnone]].
  + eapply leastCandidate_unique; [exact Hleast'|].
    repeat split; [exact Hin | exact Hpc |].
    intros c' Hin' Hp'. apply Hl; [exact Hin'|].
    eapply prefix_trans; [|exact Hp']. exists (trimEnd rest). exact Htrim.
  + exfalso. exact (Hnone c Hin Hpc).
Qed.

End SuggestionMore.

(** X1.  Autocompletion is idempotent: in every session state and for every
    command set, calling [autocompleteSuggestion()] a second time changes
    nothing, also when candidates carry white space at their ends. *)
Theorem autocomplete_idempotent (commands : list CommandDefinition) (s : Session) :
  stateAfter (autocompleteSuggestion commands)
             (stateAfter (autocompleteSuggestion commands) s)
  = stateAfter (autocompleteSuggestion commands) s /\
  suggestion commands (inputText (stateAfter (autocompleteSuggestion commands) s))
  = suggestion commands (inputText s).
Proof.
pose proof (suggestion_fixpoint commands (inputText s)) as Hfix.
destruct s as [it ms he hi r h wq inv fl]; simpl in Hfix.
engine_unfold.
destruct (JsString.truthy (suggestion commands it)) eqn:E1; simpl.
- rewrite Hfix, E1. simpl. auto.
- rewrite E1. simpl. auto.
Qed.

(** X2.  The suggestion does not see the white space around the input:
    the input and its trimmed form get the same suggestion. *)
Theorem suggestion_ignores_surrounding_space
    (commands : list CommandDefinition) (inputText : jsstring) :
  suggestion commands (JsString.trim inputText) = suggestion commands inputText.
Proof. unfold suggestion. rewrite trim_idempotent. reflexivity. Qed.

(** Registering the same commands in another order permutes the
    vocabulary. *)
Lemma vocabulary_perm (commands commands' : list CommandDefinition) :
  Permutation commands commands' ->
  Permutation (vocabulary commands) (vocabulary commands').
Proof. apply Permutation_flat_map. Qed.

(** X3.  The suggestion does not depend on the order in which the commands
    are registered: two arrangements of the same command definitions give
    the same sorted candidate list and the same suggestion for every
    input. *)
Theorem suggestion_order_independent
    (commands commands' : list CommandDefinition) (inputText : jsstring) :
  Permutation commands commands' ->
  suggestions commands = suggestions commands' /\
  suggestion commands inputText = suggestion commands' inputText.
Proof.
intros Hp. apply vocabulary_perm in Hp.
assert (Hs : suggestions commands = suggestions commands').
{ unfold suggestions. symmetry. apply sort_unique; [|apply sort_sorted].
  rewrite Hp. symmetry. apply sort_perm. }
split; [exact Hs|]. unfold suggestion. rewrite Hs. reflexivity.
Qed.

Lemma suggestion_order_independent_witness :
  suggestion [abc; dfg] (lit "d") = suggestion [dfg; abc] (lit "d").
Proof.
apply (suggestion_order_independent [abc; dfg] [dfg; abc] (lit "d")).
apply perm_swap.
Defined.

(** ** The command lookup and the parsed tokens *)

(** X4.  Duplicate names resolve to the first match: [findCommand] returns
    a definition exactly when it carries the token as its name and no
    definition registered before it does, and returns nothing exactly when
    no definition carries it. *)
Theorem findCommand_first_match (commands : list CommandDefinition) (token : jsstring) :
  (forall d, findCommand commands token = Some d <->
     exists before after,
       commands = before ++ d :: after /\ name d = token /\
       Forall (fun d' => name d' <> token) before) /\
  (findCommand commands token = None <->
     Forall (fun d' => name d' <> token) commands).
Proof.
unfold findCommand. induction commands as [|d0 commands [IHs IHn]]; simpl.
- split.
  + intros d; split; [discriminate|].
    intros (before & after & H & _). destruct before; discriminate.
  + split; constructor.
- destruct (JsString.eqb (name d0) token) eqn:E.
  + apply eqb_eq in E. split.
    * intros d; split.
      -- intros [= <-]. exists [], commands. repeat split; auto.
      -- intros (before & after & H & Hn & Hb).
         destruct before as [|b before]; simpl in H; injection H as <- _;
           [reflexivity|].
         inversion Hb; subst; contradiction.
    * split; [discriminate|]. intros H; inversion H; subst; contradiction.
  + apply eqb_neq in E. split.
    * intros d; rewrite IHs; split.
      -- intros (before & after & -> & Hn & Hb).
         exists (d0 :: before), after. repeat split; auto.
      -- intros (before & after & H & Hn & Hb).
         destruct before as [|b before]; simpl in H; injection H as <- H;
           [contradiction|].
         inversion Hb; subst. exists before, after. auto.
    * rewrite IHn. split; [constructor; assumption|].
      intros H; inversion H; assumption.
Qed.

Lemma findCommand_first_match_witness :
  findCommand [abc; mkCommand (lit "abc") (lit "second") None] (lit "abc") = Some abc.
Proof.
apply (proj1 (findCommand_first_match
                [abc; mkCommand (lit "abc") (lit "second") None] (lit "abc"))).
exists [], [mkCommand (lit "abc") (lit "second") None].
repeat split. constructor.
Defined.

Section TokenFacts.

Import JsString.

Lemma startsClean_not_space (c : codeUnit) (a : jsstring) :
  startsClean (c :: a) -> N.eqb c SPACE = false.
Proof.
simpl. intros H. destruct (N.eqb_spec c SPACE) as [->|]; [discriminate H | reflexivity].
Qed.

Lemma split_cons (c : codeUnit) (a : jsstring) :
  split (c :: a)
  = if N.eqb c SPACE then [] :: split a
    else (c :: fst (splitPieces a)) :: snd (splitPieces a).
Proof.
unfold split; simpl. destruct (splitPieces a), (N.eqb c SPACE); reflexivity.
Qed.

Lemma split_last_empty (a : jsstring) :
  a <> [] -> last (split a) [] = [] -> last a 0%N = SPACE.
Proof.
induction a as [|c a IH]; [congruence|]. intros _.
destruct a as [|c2 a2].
- unfold split; simpl. destruct (N.eqb_spec c SPACE) as [->|]; [reflexivity|discriminate].
- assert (Hne : c2 :: a2 <> []) by discriminate. specialize (IH Hne).
  intros Hl. change (last (c :: c2 :: a2) 0%N) with (last (c2 :: a2) 0%N).
  apply IH. revert Hl. rewrite split_cons, (split_pieces (c2 :: a2)).
  destruct (N.eqb c SPACE); [intros Hl; exact Hl|].
  destruct (snd (splitPieces (c2 :: a2))); [discriminate | intros Hl; exact Hl].
Qed.

Lemma last_rev_head (c : codeUnit) (a r : jsstring) :
  rev a = c :: r -> last a 0%N = c.
Proof.
intros H. rewrite <- (rev_involutive a), H. simpl. apply last_last.
Qed.

End TokenFacts.

Lemma command_nonempty (text : jsstring) :
  JsString.trim text = text -> text <> [] -> command (parseInput text) <> [].
Proof.
intros Ht Hne. pose proof (trim_clean text) as [H1 _]. rewrite Ht in H1.
destruct text as [|c a]; [congruence|].
pose proof (startsClean_not_space c a H1) as Hc.
unfold parseInput, JsString.split. simpl.
destruct (JsString.splitPieces a). rewrite Hc. discriminate.
Qed.

(** X5.  In a trimmed non-empty input the command token and the last token
    are not empty: empty tokens only come from two spaces that meet inside
    the text, and the not-found message always names a token. *)
Theorem parse_outer_tokens_nonempty (text : jsstring) :
  JsString.trim text = text -> text <> [] ->
  command (parseInput text) <> [] /\
  last (command (parseInput text) :: args (parseInput text)) [] <> [].
Proof.
intros Ht Hne. split; [apply command_nonempty; assumption|].
pose proof (trim_clean text) as [_ H2]. rewrite Ht in H2.
rewrite <- parseInput_split. intros Hl.
pose proof (split_last_empty text Hne Hl) as Hs.
destruct (rev text) as [|c r] eqn:Er.
- apply Hne. rewrite <- (rev_involutive text), Er. reflexivity.
- rewrite (last_rev_head c text r Er) in Hs. subst c.
  discriminate H2.
Qed.

Lemma parse_outer_tokens_nonempty_witness :
  command (parseInput (lit "abc  b")) <> [].
Proof.
apply (parse_outer_tokens_nonempty (lit "abc  b")); [reflexivity | discriminate].
Defined.

(** ** What sessions keep *)

Section SessionFacts.

Variable commands : list CommandDefinition.

Lemma dispatch_registered (inputText : jsstring) (d : CommandDefinition) :
  JsString.truthy (JsString.trim inputText) = true ->
  findCommand commands (command (parseInput (JsString.trim inputText))) = Some d ->
  registeredCall commands
    (mkInvocation d (args (parseInput (JsString.trim inputText)))).
Proof.
intros Ht Hf. apply truthy_nonempty in Ht.
pose proof (find_some _ _ Hf) as [Hin Hname]. apply eqb_eq in Hname.
pose proof (split_spaceFree (JsString.trim inputText)) as Hsf.
rewrite parseInput_split in Hsf. inversion Hsf as [|? ? Hc Ha]; subst.
unfold registeredCall; simpl. rewrite Hname.
repeat split; auto.
apply (command_nonempty (JsString.trim inputText));
  [apply trim_idempotent | exact Ht].
Qed.

Lemma step_registered (s : Session) (ev : event) (s' : Session) :
  Forall (registeredCall commands) (invoked s) -> step commands s ev = Some s' ->
  Forall (registeredCall commands) (invoked s').
Proof.
destruct s as [it ms he hi r h wq inv fl].
destruct ev; engine_unfold; intros Hc Hs;
  try (destruct fl as [|fl]; [discriminate|]);
  injection Hs as <-; revert Hc; split_tests; auto.
all: intros Hc; apply Forall_app; split; [exact Hc|];
  constructor; [|constructor]; apply dispatch_registered; assumption.
Qed.

Lemma step_trimmedEntries (s : Session) (ev : event) (s' : Session) :
  Forall trimmedEntry (historyEntries s) -> step commands s ev = Some s' ->
  Forall trimmedEntry (historyEntries s').
Proof.
destruct s as [it ms he hi r h wq inv fl].
destruct ev; engine_unfold; intros Hc Hs;
  try (destruct fl as [|fl]; [discriminate|]);
  injection Hs as <-; revert Hc; split_tests; auto.
all: intros Hc; constructor; [|exact Hc];
  split; [apply truthy_nonempty; assumption | apply trim_idempotent].
Qed.

Lemma step_while_running (s : Session) (ev : event) (s' : Session) :
  isRunning s = true -> settles ev = false -> step commands s ev = Some s' ->
  isRunning s' = true /\ invoked s' = invoked s /\
  historyEntries s' = historyEntries s.
Proof.
destruct s as [it ms he hi r h wq inv fl]; simpl. intros ->.
destruct ev; try discriminate; engine_unfold; intros _ Hs;
  try (destruct fl as [|fl]; [discriminate|]);
  injection Hs as <-; split_tests; auto.
Qed.

End SessionFacts.



(** X7.  In every reachable session state, every history entry is a
    non-empty text without white space at its ends (the entries are
    trimmed submissions; blank submissions are not stored). *)
Theorem history_entries_trimmed (commands : list CommandDefinition) (s : Session) :
  reachable commands s -> Forall trimmedEntry (historyEntries s).
Proof.
intros [evs Hrun].
eapply (run_preserves commands (fun s => Forall trimmedEntry (historyEntries s)));
  [apply step_trimmedEntries | | exact Hrun].
constructor.
Qed.

Lemma history_entries_trimmed_witness :
  Forall trimmedEntry (historyEntries runningSession).
Proof.
apply (history_entries_trimmed testCommands runningSession).
exists runningEvents. vm_compute. reflexivity.
Defined.

(** X8.  In every reachable session state, every handler call made so far
    was for a registered definition, the first one of its name, under a
    non-empty name without a space, and with arguments that contain no
    space. *)
Theorem handler_calls_registered (commands : list CommandDefinition) (s : Session) :
  reachable commands s -> Forall (registeredCall commands) (invoked s).
Proof.
intros [evs Hrun].
eapply (run_preserves commands
          (fun s => Forall (registeredCall commands) (invoked s)));
  [apply step_registered | | exact Hrun].
constructor.
Qed.

Lemma handler_calls_registered_witness :
  Forall (registeredCall testCommands) (invoked runningSession).
Proof.
apply (handler_calls_registered testCommands runningSession).
exists runningEvents. vm_compute. reflexivity.
Defined.

(** X9.  Nothing but the settling of the handler releases the session:
    from a state with [isRunning] true, whatever the interface is called
    with, whatever the handler does through its context and however often
    the scheduler runs, as long as the handler has not settled [isRunning]
    stays true, no other handler is called and the history does not
    change. *)
Theorem running_until_settled (commands : list CommandDefinition)
    (evs : list event) (s s' : Session) :
  isRunning s = true -> forallb (fun ev => negb (settles ev)) evs = true ->
  run commands s evs = Some s' ->
  isRunning s' = true /\ invoked s' = invoked s /\
  historyEntries s' = historyEntries s.
Proof.
revert s; induction evs as [|ev evs IH]; simpl; intros s Hr Hevs Hrun.
- injection Hrun as <-. auto.
- apply andb_true_iff in Hevs as [Hev Hevs]. apply negb_true_iff in Hev.
  destruct (step commands s ev) as [s1|] eqn:E; [|discriminate].
  destruct (step_while_running commands s ev s1 Hr Hev E) as (Hr1 & Hi1 & Hh1).
  destruct (IH s1 Hr1 Hevs Hrun) as (Hr' & Hi' & Hh').
  repeat split; congruence.
Qed.

Lemma running_until_settled_witness :
  isRunning (stateAfter (execute testCommands) runningSession) = true.
Proof.
apply (running_until_settled testCommands [DoExecute] runningSession
         (stateAfter (execute testCommands) runningSession));
  reflexivity.
Defined.

(** ** Submissions and the history cursor *)

Lemma differsFromLatest_false (input : jsstring) (entries : list jsstring) :
  differsFromLatest input entries = false ->
  exists older, entries = input :: older.
Proof.
destruct entries as [|latest older]; unfold differsFromLatest; simpl;
  [discriminate|].
intros H. apply negb_false_iff, eqb_eq in H. subst. exists older; reflexivity.
Qed.

(** X10.  Recalling the last submission: after a call of [execute()] that is
    not dropped and has a non-empty trimmed input, the entry at index 0 of
    the history is that trimmed input, and one [navigateToPreviousEntry()]
    with the scheduler flush after it puts exactly that text back into the
    input, with the cursor at 0. *)
Theorem recall_last_submission (commands : list CommandDefinition) (s : Session) :
  isRunning s = false -> JsString.trim (inputText s) <> [] ->
  entryAt (historyEntries (stateAfter (execute commands) s)) 0
    = Some (JsString.trim (inputText s)) /\
  exists s',
    run commands s [DoExecute; DoNavigateToPreviousEntry; SchedulerFlush] = Some s' /\
    inputText s' = JsString.trim (inputText s) /\ historyIndex s' = 0%Z.
Proof.
intros Hr Ht.
pose proof (execute_submitted commands s Hr Ht) as He; simpl in He.
unfold run, step, stateAfter at 1 3, effects. rewrite He; clear He.
destruct s as [it ms he hi r h wq inv fl]; simpl in Hr, Ht |- *.
set (input := JsString.trim it) in *.
destruct (differsFromLatest input he) eqn:Ed.
- split; [destruct (findCommand commands _); reflexivity|].
  eexists; split; [reflexivity|].
  destruct (findCommand commands _); engine_unfold;
    (replace (-1 <? Z.of_nat (S (List.length he)) - 1)%Z with true by lia);
    simpl; rewrite ?orb_true_r; simpl; auto.
- destruct (differsFromLatest_false _ _ Ed) as [older ->].
  split; [destruct (findCommand commands _); reflexivity|].
  eexists; split; [reflexivity|].
  destruct (findCommand commands _); engine_unfold;
    (replace (-1 <? Z.of_nat (S (List.length older)) - 1)%Z with true by lia);
    simpl; rewrite ?orb_true_r; simpl; auto.
Qed.

Lemma recall_last_submission_witness :
  entryAt (historyEntries
             (stateAfter (execute testCommands)
                (mkSession (lit " dfg x ") [] [lit "abc"] 0 false false false [] 0))) 0
  = Some (lit "dfg x").
Proof.
apply (recall_last_submission testCommands
         (mkSession (lit " dfg x ") [] [lit "abc"] 0 false false false [] 0));
  [reflexivity | vm_compute; discriminate].
Defined.

(** X11.  Going back and forth: with the cursor in its range, a
    [navigateToPreviousEntry()] that moves the cursor is undone by
    [navigateToNextEntry()], and the other way round; with the scheduler
    flush after each call the input then shows the entry under the cursor
    (or nothing at -1), whatever had been typed into it. *)
Theorem navigation_round_trip (s : Session) :
  indexInRange s ->
  let last := (Z.of_nat (List.length (historyEntries s)) - 1)%Z in
  let shown := orEmpty (entryAt (historyEntries s) (historyIndex s)) in
  ((historyIndex s < last)%Z ->
   let s' := flush (stateAfter navigateToNextEntry
                      (flush (stateAfter navigateToPreviousEntry s))) in
   historyIndex s' = historyIndex s /\ inputText s' = shown) /\
  ((historyIndex s > -1)%Z ->
   let s' := flush (stateAfter navigateToPreviousEntry
                      (flush (stateAfter navigateToNextEntry s))) in
   historyIndex s' = historyIndex s /\ inputText s' = shown).
Proof.
unfold indexInRange. destruct s as [it ms he hi r h wq inv fl]; simpl.
intros Hrange. split; intros Hmove; engine_unfold.
- replace (hi <? Z.of_nat (List.length he) - 1)%Z with true by lia. simpl.
  replace (wq || negb (hi + 1 =? hi)%Z) with true
    by (replace (hi + 1 =? hi)%Z with false by lia; destruct wq; reflexivity).
  simpl. replace (hi + 1 >? -1)%Z with true by lia. simpl.
  replace (hi + 1 - 1 =? hi + 1)%Z with false by lia. simpl.
  replace (hi + 1 - 1)%Z with hi by lia. auto.
- replace (hi >? -1)%Z with true by lia. simpl.
  replace (wq || negb (hi - 1 =? hi)%Z) with true
    by (replace (hi - 1 =? hi)%Z with false by lia; destruct wq; reflexivity).
  simpl. replace (hi - 1 <? Z.of_nat (List.length he) - 1)%Z with true by lia. simpl.
  replace (hi - 1 + 1 =? hi - 1)%Z with false by lia. simpl.
  replace (hi - 1 + 1)%Z with hi by lia. auto.
Qed.

Lemma navigation_round_trip_witness :
  historyIndex
    (flush (stateAfter navigateToPreviousEntry
              (flush (stateAfter navigateToNextEntry browsingSession))))
  = historyIndex browsingSession.
Proof.
apply (proj2 (navigation_round_trip browsingSession
                ltac:(unfold indexInRange; simpl; lia))).
reflexivity.
Defined.

(** X12.  A navigation call at the end of the history does not touch the
    input: with no [watchEffect] run pending, [navigateToPreviousEntry()]
    at the oldest entry (or with an empty history) and
    [navigateToNextEntry()] at -1 leave the whole session as it is, also
    after the scheduler flush, so what the user typed stays. *)
Theorem clamped_navigation_keeps_input (s : Session) :
  watchQueued s = false ->
  (~ (historyIndex s < Z.of_nat (List.length (historyEntries s)) - 1)%Z ->
   flush (stateAfter navigateToPreviousEntry s) = s) /\
  (~ (historyIndex s > -1)%Z ->
   flush (stateAfter navigateToNextEntry s) = s).
Proof.
destruct s as [it ms he hi r h wq inv fl]; simpl. intros ->.
split; intros Hc; engine_unfold.
- replace (hi <? Z.of_nat (List.length he) - 1)%Z with false by lia. reflexivity.
- replace (hi >? -1)%Z with false by lia. reflexivity.
Qed.

Lemma clamped_navigation_keeps_input_witness :
  flush (stateAfter navigateToPreviousEntry browsingSession) = browsingSession.
Proof.
apply (proj1 (clamped_navigation_keeps_input browsingSession eq_refl)).
vm_compute. discriminate.
Defined.

(** X13.  A blank submission: a call of [execute()] that is not dropped,
    with an input that is empty or all white space, appends one empty input
    line, empties the input and does nothing else: the history, the cursor,
    both flags and the handler calls are as before. *)
Theorem blank_submission (commands : list CommandDefinition) (s : Session) :
  isRunning s = false -> JsString.trim (inputText s) = [] ->
  result (execute commands) s = Returned /\
  stateAfter (execute commands) s
  = mkSession [] (messages s ++ [mkMessage Input [] false]) (historyEntries s)
              (historyIndex s) false (isHalted s) (watchQueued s) (invoked s)
              (inFlight s).
Proof.
intros Hr Ht. unfold result, stateAfter, effects.
rewrite (execute_blank commands s Hr Ht).
destruct s; simpl in *; subst; auto.
Qed.

Lemma blank_submission_witness :
  messages (stateAfter (execute testCommands)
              (mkSession (lit "   ") [] [lit "abc"] 0 false true false [] 0))
  = [mkMessage Input [] false].
Proof.
rewrite (proj2 (blank_submission testCommands
           (mkSession (lit "   ") [] [lit "abc"] 0 false true false [] 0)
           eq_refl eq_refl)).
reflexivity.
Defined.

(** X14.  After a submission the input is empty: a call of [execute()] that
    is not dropped leaves the input empty, and with a non-empty trimmed
    input the scheduler flush after it leaves it empty too, whatever the
    cursor pointed at before. *)
Theorem input_empty_after_submission (commands : list CommandDefinition) (s : Session) :
  isRunning s = false ->
  inputText (stateAfter (execute commands) s) = [] /\
  (JsString.trim (inputText s) <> [] ->
   inputText (flush (stateAfter (execute commands) s)) = []).
Proof.
intros Hr. unfold stateAfter, effects.
destruct (JsString.trim (inputText s)) as [|x t] eqn:Et.
- rewrite (execute_blank commands s Hr Et).
  split; [destruct s; reflexivity | congruence].
- assert (Ht : JsString.trim (inputText s) <> []) by (rewrite Et; discriminate).
  pose proof (execute_submitted commands s Hr Ht) as He; simpl in He.
  rewrite He, Et; clear He.
  destruct s as [it ms he hi r h wq inv fl]; simpl.
  destruct (differsFromLatest (x :: t) he); simpl;
    destruct (findCommand commands _); simpl; unfold flush; simpl;
    split; try reflexivity; intros _;
    match goal with |- context [if ?c then _ else _] => destruct c end;
    reflexivity.
Qed.

Lemma input_empty_after_submission_witness :
  inputText (flush (stateAfter (execute testCommands)
               (mkSession (lit "abc") [] [lit "abc"; lit "dfg"] 1
                          false false false [] 0))) = [].
Proof.
apply (proj2 (input_empty_after_submission testCommands
                (mkSession (lit "abc") [] [lit "abc"; lit "dfg"] 1
                           false false false [] 0) eq_refl)).
vm_compute; discriminate.
Defined.

(** ** The handlers at work *)

Section HandlerFacts.

Import JsString.

Variable commands : list CommandDefinition.

(** The state in which the handler is called. *)
Lemma dispatch_state (s : Session) (d : CommandDefinition) :
  isRunning s = false -> trim (inputText s) <> [] ->
  findCommand commands (command (parseInput (trim (inputText s)))) = Some d ->
  exists entries queued,
    stateAfter (execute commands) s
    = mkSession [] (messages s ++ [mkMessage Input (trim (inputText s)) false])
        entries (-1) true false queued
        (invoked s ++ [mkInvocation d (args (parseInput (trim (inputText s))))])
        (S (inFlight s)).
Proof.
intros Hr Ht Hf.
pose proof (execute_submitted commands s Hr Ht) as He; simpl in He.
rewrite Hf in He. unfold stateAfter, effects. rewrite He; clear He.
destruct s as [it ms he hi r h wq inv fl]; simpl.
destruct (differsFromLatest _ he); simpl; eexists; eexists; reflexivity.
Qed.

Lemma parseInput_first_space (token rest : jsstring) :
  spaceFree token ->
  parseInput (token ++ SPACE :: rest) = mkParsed token (split rest).
Proof.
intros Hs. unfold parseInput. rewrite split_pieces, (splitPieces_app _ _ Hs).
reflexivity.
Qed.

Lemma parseInput_no_space (token : jsstring) :
  spaceFree token -> parseInput token = mkParsed token [].
Proof.
intros Hs. unfold parseInput. rewrite split_pieces, (splitPieces_spaceFree _ Hs).
reflexivity.
Qed.

Lemma lit_echo_spaceFree : spaceFree (lit "echo").
Proof. unfold spaceFree; simpl. intuition discriminate. Qed.

Lemma lit_cat_spaceFree : spaceFree (lit "cat").
Proof. unfold spaceFree; simpl. intuition discriminate. Qed.

End HandlerFacts.

(** X15.  [echo] prints what follows the first space, as typed: when the
    trimmed input is ["echo"], a space and a rest, and the [echo] handler
    runs for it, the transcript gains the echoed input line and then one
    output line with exactly that rest, inner runs of spaces included; the
    handler was called with the pieces of the rest, and the session is idle
    again afterwards. *)
Theorem echo_prints_rest (commands : list CommandDefinition) (s : Session)
    (d : CommandDefinition) (rest : jsstring) :
  isRunning s = false ->
  JsString.trim (inputText s) = lit "echo" ++ JsString.SPACE :: rest ->
  findCommand commands (lit "echo") = Some d ->
  exists s',
    run commands s (handled (echoHandler (JsString.split rest))) = Some s' /\
    messages s'
    = messages s ++ [mkMessage Input (lit "echo" ++ JsString.SPACE :: rest) false;
                     mkMessage Output rest false] /\
    invoked s' = invoked s ++ [mkInvocation d (JsString.split rest)] /\
    isRunning s' = false /\ inFlight s' = inFlight s.
Proof.
intros Hr Ht Hf.
assert (Hne : JsString.trim (inputText s) <> []) by (rewrite Ht; discriminate).
pose proof (parseInput_first_space (lit "echo") rest lit_echo_spaceFree) as Hp.
destruct (dispatch_state commands s d Hr Hne) as (entries & queued & Hd).
{ rewrite Ht, Hp. exact Hf. }
rewrite Ht, Hp in Hd. simpl args in Hd.
unfold handled, echoHandler. simpl run. rewrite Hd.
simpl. rewrite join_split, <- app_assoc. eexists; split; [reflexivity|].
simpl. auto.
Qed.

Lemma echo_prints_rest_witness :
  exists s',
    run [mkCommand (lit "echo") [] None]
        (mkSession (lit "echo a  b") [] [] (-1) false false false [] 0)
        (handled (echoHandler (JsString.split (lit "a  b")))) = Some s' /\
    messages s'
    = [mkMessage Input (lit "echo a  b") false; mkMessage Output (lit "a  b") false].
Proof.
destruct (echo_prints_rest [mkCommand (lit "echo") [] None]
            (mkSession (lit "echo a  b") [] [] (-1) false false false [] 0)
            (mkCommand (lit "echo") [] None) (lit "a  b")
            eq_refl eq_refl eq_refl) as (s' & Hrun & Hm & _).
exists s'. split; [exact Hrun | exact Hm].
Defined.

(** X16.  [clear] leaves an empty transcript: when the [clear] handler runs
    for a submission, the transcript is empty afterwards, the echoed input
    line of the submission included, and the session is idle again. *)
Theorem clear_empties_transcript (commands : list CommandDefinition) (s : Session)
    (d : CommandDefinition) :
  isRunning s = false -> JsString.trim (inputText s) <> [] ->
  findCommand commands (command (parseInput (JsString.trim (inputText s)))) = Some d ->
  exists s',
    run commands s
        (handled (clearHandler (args (parseInput (JsString.trim (inputText s))))))
      = Some s' /\
    messages s' = [] /\ isRunning s' = false /\ inFlight s' = inFlight s.
Proof.
intros Hr Hne Hf.
destruct (dispatch_state commands s d Hr Hne Hf) as (entries & queued & Hd).
unfold handled, clearHandler. simpl run. rewrite Hd.
simpl. eexists; split; [reflexivity|]. simpl. auto.
Qed.

Lemma clear_empties_transcript_witness :
  exists s',
    run [mkCommand (lit "clear") [] None]
        (mkSession (lit "clear") [mkMessage Output (lit "old") false] [] (-1)
                   false false false [] 0)
        (handled (clearHandler [])) = Some s' /\
    messages s' = [].
Proof.
destruct (clear_empties_transcript [mkCommand (lit "clear") [] None]
            (mkSession (lit "clear") [mkMessage Output (lit "old") false] [] (-1)
                       false false false [] 0)
            (mkCommand (lit "clear") [] None) eq_refl
            ltac:(vm_compute; discriminate) eq_refl) as (s' & Hrun & Hm & _).
exists s'. split; [exact Hrun | exact Hm].
Defined.

(** X17.  [cat] looks at its first argument only: with no argument, or
    with an empty first argument (two spaces after ["cat"]), it prints its
    usage line as HTML and reads no file; with a named file, whatever
    follows it is ignored, a name without text, or with empty text, gives
    the plain not-found line, and any other text is printed as HTML. *)
Theorem cat_first_argument (files : jsstring -> option jsstring) :
  catHandler files (args (parseInput (lit "cat")))
    = [HandlerAppendOutput catUsage (Some true)] /\
  (forall rest,
     catHandler files
       (args (parseInput (lit "cat" ++ JsString.SPACE :: JsString.SPACE :: rest)))
     = [HandlerAppendOutput catUsage (Some true)]) /\
  (forall file more, file <> [] -> spaceFree file ->
     catHandler files (args (parseInput (lit "cat" ++ JsString.SPACE :: file)))
       = catHandler files [file] /\
     catHandler files
       (args (parseInput (lit "cat" ++ JsString.SPACE :: file
                          ++ JsString.SPACE :: more)))
       = catHandler files [file] /\
     catHandler files [file]
       = match files file with
         | Some (c :: contents) => [HandlerAppendOutput (c :: contents) (Some true)]
         | _ => [HandlerAppendOutput (catNotFound file) None]
         end).
Proof.
split; [reflexivity|]. split.
- intros rest. rewrite (parseInput_first_space _ _ lit_cat_spaceFree).
  simpl args. rewrite split_cons. reflexivity.
- intros file more Hne Hs.
  rewrite !(parseInput_first_space _ _ lit_cat_spaceFree). simpl args.
  rewrite (split_pieces (file ++ _)), (splitPieces_app _ _ Hs).
  rewrite (split_pieces file), (splitPieces_spaceFree _ Hs). simpl fst; simpl snd.
  destruct file as [|c file]; [congruence|]. simpl.
  repeat split. destruct (files (c :: file)) as [[|]|]; reflexivity.
Qed.

Lemma cat_first_argument_witness :
  catHandler (fun _ => None)
    (args (parseInput (lit "cat" ++ JsString.SPACE :: lit "a.md"
                       ++ JsString.SPACE :: lit "b.md")))
  = [HandlerAppendOutput (lit "cat: a.md: No such file or directory") None].
Proof.
rewrite (proj1 (proj2 (proj2 (proj2 (cat_first_argument (fun _ => None)))
                        (lit "a.md") (lit "b.md")
                        ltac:(discriminate)
                        ltac:(unfold spaceFree; simpl; intuition discriminate)))).
reflexivity.
Defined.

(** X18.  The lines of [help] are the ["<name> - <description>"] lines of
    the commands, each once per command, in ascending order; so the text
    does not depend on the order in which the commands are registered. *)
Theorem help_lines_sorted (commands commands' : list CommandDefinition)
    (args : list jsstring) :
  StronglySorted JsString.le (helpLines commands) /\
  Permutation (helpLines commands) (map helpLine commands) /\
  (Permutation commands commands' ->
   helpHandler commands args = helpHandler commands' args).
Proof.
unfold helpHandler, helpLines.
split; [apply sort_sorted|]. split; [apply sort_perm|].
intros Hp. do 3 f_equal. symmetry. apply sort_unique; [|apply sort_sorted].
rewrite (Permutation_map helpLine Hp). symmetry. apply sort_perm.
Qed.

Lemma help_lines_sorted_witness :
  helpHandler [abc; dfg] [] = helpHandler [dfg; abc] [].
Proof.
apply (help_lines_sorted [abc; dfg] [dfg; abc] []). apply perm_swap.
Defined.

(** ** The suggestion overlay *)

Lemma suggestionText_length (suggested input : jsstring) :
  List.length (suggestionText suggested input) = List.length suggested.
Proof.
unfold suggestionText, padStart, substring.
rewrite length_app, repeat_length, length_skipn. lia.
Qed.

Lemma suggestionText_prefix (input rest : jsstring) :
  suggestionText (input ++ rest) input
  = repeat JsString.SPACE (List.length input) ++ rest.
Proof.
unfold suggestionText, padStart, substring.
rewrite skipn_app, skipn_all, Nat.sub_diag, length_app. simpl.
f_equal. f_equal. lia.
Qed.

(** X19.  The grey overlay lines up with the input: [suggestionText] is
    always as long as the suggestion; and when the input has no white space
    around it and there is a suggestion, the overlay is one space per
    character typed followed by the part of the suggestion that is still to
    type, so the input followed by that part is the suggestion. *)
Theorem suggestion_overlay (commands : list CommandDefinition) (input : jsstring) :
  let suggested := suggestion commands input in
  List.length (suggestionText suggested input) = List.length suggested /\
  (JsString.trim input = input -> suggested <> [] ->
   suggestionText suggested input
     = repeat JsString.SPACE (List.length input)
       ++ skipn (List.length input) suggested /\
   input ++ skipn (List.length input) suggested = suggested).
Proof.
intros suggested. split; [apply suggestionText_length|].
intros Ht Hs.
assert (Hp : JsString.prefix input suggested).
{ destruct (JsString.truthy input) eqn:E.
  - apply truthy_nonempty in E.
    assert (Hne : JsString.trim input <> []) by (rewrite Ht; exact E).
    destruct (suggestion_cases commands input Hne) as [(_ & Hp & _)|[He _]].
    + rewrite Ht in Hp. exact Hp.
    + contradiction.
  - destruct input; [exists suggested; reflexivity | discriminate]. }
destruct Hp as [rest Hrest]. rewrite Hrest.
rewrite suggestionText_prefix, skipn_app, skipn_all, Nat.sub_diag. simpl.
auto.
Qed.

Lemma suggestion_overlay_witness :
  suggestionText (suggestion testCommands (lit "a")) (lit "a") = lit " bc".
Proof.
rewrite (proj1 (proj2 (suggestion_overlay testCommands (lit "a"))
                  eq_refl ltac:(vm_compute; discriminate))).
reflexivity.
Defined.

(** ** The halt flag and the running command *)

(** X20.  A halt requested at the idle prompt does not reach the next
    command: after [haltExecution()] in an idle session, a submission that
    finds its command calls the handler with [isHalted] false again, while
    a blank submission or one that names no command leaves the flag
    raised. *)
Theorem halt_before_dispatch_is_lost (commands : list CommandDefinition) (s : Session) :
  isRunning s = false ->
  let input := JsString.trim (inputText s) in
  let s' := stateAfter (execute commands) (stateAfter haltExecution s) in
  isHalted (stateAfter haltExecution s) = true /\
  (input = [] -> isHalted s' = true) /\
  (input <> [] -> findCommand commands (command (parseInput input)) = None ->
   isHalted s' = true /\ isRunning s' = false) /\
  (input <> [] ->
   forall d, findCommand commands (command (parseInput input)) = Some d ->
   isHalted s' = false /\ isRunning s' = true).
Proof.
intros Hr input s'. subst input s'.
assert (Hs : stateAfter haltExecution s
             = mkSession (inputText s) (messages s ++ [mkMessage Input [] false])
                 (historyEntries s) (historyIndex s) (isRunning s) true
                 (watchQueued s) (invoked s) (inFlight s)).
{ destruct s as [it ms he hi r h wq inv fl]; simpl in Hr; subst r. reflexivity. }
rewrite Hs; clear Hs.
split; [reflexivity|].
set (s1 := mkSession _ _ _ _ _ _ _ _ _).
assert (Hr1 : isRunning s1 = false) by exact Hr.
assert (Hi1 : inputText s1 = inputText s) by reflexivity.
unfold stateAfter, effects. split; [|split].
- intros Ht. rewrite (execute_blank commands s1 Hr1 Ht). reflexivity.
- intros Ht Hf.
  pose proof (execute_submitted commands s1 Hr1 Ht) as He.
  cbv zeta in He. rewrite Hi1 in He. rewrite He, Hf; clear He. subst s1. simpl.
  destruct (differsFromLatest _ _); simpl; rewrite Hr; auto.
- intros Ht d Hf.
  pose proof (execute_submitted commands s1 Hr1 Ht) as He.
  cbv zeta in He. rewrite Hi1 in He. rewrite He, Hf; clear He. subst s1. simpl.
  destruct (differsFromLatest _ _); simpl; auto.
Qed.

Lemma halt_before_dispatch_is_lost_witness :
  isHalted (stateAfter (execute testCommands)
              (stateAfter haltExecution
                 (mkSession (lit "abc") [] [] (-1) false false false [] 0)))
  = false.
Proof.
apply (proj2 (proj2 (proj2 (halt_before_dispatch_is_lost testCommands
         (mkSession (lit "abc") [] [] (-1) false false false [] 0) eq_refl)))
         ltac:(vm_compute; discriminate) abc eq_refl).
Defined.

Section RunningLine.

Variable commands : list CommandDefinition.

Lemma dispatch_line (inputText : jsstring) (d : CommandDefinition) :
  findCommand commands (command (parseInput (JsString.trim inputText))) = Some d ->
  JsString.join (name d :: args (parseInput (JsString.trim inputText)))
  = JsString.trim inputText.
Proof.
intros Hf. pose proof (find_some _ _ Hf) as [_ Hname]. apply eqb_eq in Hname.
rewrite Hname, <- parseInput_split. apply join_split.
Qed.

Lemma step_runningLine (s : Session) (ev : event) (s' : Session) :
  runningLine s -> step commands s ev = Some s' -> runningLine s'.
Proof.
unfold runningLine. intros Hline Hstep.
destruct (isRunning s) eqn:Hr.
- destruct (settles ev) eqn:Hev.
  + destruct ev; try discriminate Hev.
    destruct s as [it ms he hi r h wq inv fl]; engine_unfold.
    destruct fl; [discriminate|]. injection Hstep as <-. discriminate.
  + destruct (step_while_running commands s ev s' Hr Hev Hstep) as (_ & Hi & Hh).
    intros _. rewrite Hi, Hh. apply Hline. reflexivity.
- clear Hline. destruct s as [it ms he hi r h wq inv fl]; simpl in Hr; subst r.
  destruct ev; engine_unfold;
    try (destruct fl as [|fl]; [discriminate|]);
    injection Hstep as <-; split_tests; try discriminate; intros _.
  + exists c, (args (parseInput (JsString.trim it))), inv, he.
    split; [reflexivity|]. f_equal. symmetry. apply dispatch_line. assumption.
  + match goal with H : differsFromLatest _ _ = false |- _ =>
      destruct (differsFromLatest_false _ _ H) as [older ->] end.
    exists c, (args (parseInput (JsString.trim it))), inv, older.
    split; [reflexivity|]. f_equal. symmetry. apply dispatch_line. assumption.
Qed.

End RunningLine.

(** X21.  While a command runs, the newest history entry is its command
    line: in every reachable session state with [isRunning] true, the entry
    at index 0 of the history is the name of the definition whose handler
    was called last, followed by the arguments it was called with, joined
    with single spaces. *)
Theorem running_command_heads_history (commands : list CommandDefinition) (s : Session) :
  reachable commands s -> isRunning s = true ->
  exists d arguments before older,
    invoked s = before ++ [mkInvocation d arguments] /\
    historyEntries s = JsString.join (name d :: arguments) :: older.
Proof.
intros [evs Hrun].
eapply (run_preserves commands runningLine);
  [apply step_runningLine | | exact Hrun].
intros H; discriminate H.
Qed.

Lemma running_command_heads_history_witness :
  exists d arguments before older,
    invoked runningSession = before ++ [mkInvocation d arguments] /\
    historyEntries runningSession = JsString.join (name d :: arguments) :: older.
Proof.
apply (running_command_heads_history testCommands runningSession).
- exists runningEvents. vm_compute. reflexivity.
- reflexivity.
Defined.

Lemma step_history_grows (commands : list CommandDefinition)
    (s : Session) (ev : event) (s' : Session) :
  step commands s ev = Some s' ->
  exists newer,
    historyEntries s' = newer ++ historyEntries s /\
    List.length newer <= submissions [ev].
Proof.
destruct s as [it ms he hi r h wq inv fl].
destruct ev; engine_unfold; intros Hs;
  try (destruct fl as [|fl]; [discriminate|]);
  injection Hs as <-; split_tests;
  try (exists []; split; [reflexivity | unfold submissions; simpl; lia]);
  eexists [_]; split; reflexivity || (unfold submissions; simpl; lia).
Qed.

(** X22.  The history is never shortened or reordered: over any sequence of
    events the entries there were stay where they are, below the newer
    ones, and there is at most one newer entry per [execute()] call. *)
Theorem history_only_grows (commands : list CommandDefinition)
    (evs : list event) (s s' : Session) :
  run commands s evs = Some s' ->
  exists newer,
    historyEntries s' = newer ++ historyEntries s /\
    List.length newer <= submissions evs.
Proof.
revert s; induction evs as [|ev evs IH]; simpl; intros s Hrun.
- injection Hrun as <-. exists []. split; [reflexivity | simpl; lia].
- destruct (step commands s ev) as [s1|] eqn:E; [|discriminate].
  destruct (step_history_grows commands s ev s1 E) as (n1 & H1 & L1).
  destruct (IH s1 Hrun) as (n2 & H2 & L2).
  exists (n2 ++ n1). split.
  + rewrite H2, H1. apply app_assoc.
  + rewrite length_app. unfold submissions in *. simpl in *.
    destruct ev; simpl in *; lia.
Qed.

Lemma history_only_grows_witness :
  exists newer,
    historyEntries runningSession = newer ++ historyEntries initial /\
    List.length newer <= submissions runningEvents.
Proof.
apply (history_only_grows testCommands runningEvents initial runningSession).
vm_compute. reflexivity.
Defined.
